(** * Shared utilities of the Keras COCO metrics ([keras_cv/metrics/coco/utils.py])

    A shallow embedding of the box filters, the sentinel padding, the
    per-image slicing and the greedy IoU matcher, together with the
    properties the specification states about them.

    Modelling conventions.
    - A tensor entry is a finite float, that is a rational number, a value of
      [Q].  A float operation is the exact operation followed by the rounding
      of the tensor's dtype ([Float.cast]: round to nearest, ties to even,
      with gradual underflow), and a Python scalar that meets a tensor is
      first converted to the tensor's dtype, again by [Float.cast].  Overflow
      to infinity and NaN are outside the model: the statements are about
      runs whose values stay finite ([Float.finite]).
    - [int32] indices are values of [Z] (the matcher stores [-1] for "no
      match"); loop counters produced by [tf.range] are [nat].  The indices
      are stored and compared, never computed with, so the 32-bit wrap-around
      does not come into play.
    - A Python dictionary with string keys is a [gmap string _].
    - A raised exception is the [Err] branch of [result]. *)

From Stdlib Require Import QArith Qminmax Qround Qpower Qabs ZArith Lia Lqa.
From stdpp Require Import gmap strings list fin_maps sorting.

Local Open Scope Z_scope.

(** ** Exceptions *)

Inductive error : Type :=
| KeyError (key : string)
| NameError (name : string)
| ValueError
| IndexOutOfRange
| InvalidArgumentError.

Inductive result (A : Type) : Type :=
| Ok (a : A)
| Err (e : error).
Arguments Ok {A} a.
Arguments Err {A} e.

#[global] Instance result_ret : MRet result := fun A a => Ok a.
#[global] Instance result_bind : MBind result := fun A B f m =>
  match m with
  | Ok a => f a
  | Err e => Err e
  end.

(** ** Floating-point formats *)

(** The finite numbers of IEEE 754 binary32 and binary64, the formats of
    [tf.float32] and [tf.float64] (a Python float is a binary64). *)

Module Float.

Inductive dtype : Type := float32 | float64.

(** The number of significant bits. *)
Definition prec (dt : dtype) : Z :=
  match dt with float32 => 24 | float64 => 53 end.

(** The exponent of the smallest positive (subnormal) number. *)
Definition emin (dt : dtype) : Z :=
  match dt with float32 => -149 | float64 => -1074 end.

Definition pow2 (e : Z) : Q := (2 ^ e)%Q.

(** The magnitude of a positive [x]: the [k] with
    [2^(k-1) <= x < 2^k]. *)
Definition mag (x : Q) : Z :=
  let k := Z.log2 (Qnum x) - Z.log2 (Zpos (Qden x)) in
  if Qle_bool (pow2 k) x then k + 1 else k.

(** The integer nearest to [s], the even one of two equally near. *)
Definition rne (s : Q) : Z :=
  let f := Qfloor s in
  match (s - inject_Z f ?= 1 # 2)%Q with
  | Lt => f
  | Gt => f + 1
  | Eq => if Z.even f then f else f + 1
  end.

(** Rounding of a positive [x] to [p] significant bits, with no exponent
    below [e_min]. *)
Definition round_pos (p e_min : Z) (x : Q) : Q :=
  let e := Z.max (mag x - p) e_min in
  (inject_Z (rne (x / pow2 e)) * pow2 e)%Q.

Definition round (p e_min : Z) (x : Q) : Q :=
  match Z.compare 0 (Qnum x) with
  | Lt => round_pos p e_min x
  | Eq => 0%Q
  | Gt => (- round_pos p e_min (- x))%Q
  end.

(** The float of the format [dt] nearest to [x], as a reduced fraction: the
    result of a float operation whose exact result is [x], and the
    conversion of a Python scalar [x] to a tensor of dtype [dt]. *)
Definition cast (dt : dtype) (x : Q) : Q :=
  Qred (round (prec dt) (emin dt) x).

(** The exponent of the largest finite number, and that number. *)
Definition emax (dt : dtype) : Z :=
  match dt with float32 => 127 | float64 => 1023 end.

Definition max_float (dt : dtype) : Q :=
  (inject_Z (2 ^ prec dt - 1) * pow2 (emax dt - prec dt + 1))%Q.

(** [x] lies in the finite range of [dt]: a float operation whose rounded
    result is [x] has not overflowed to an infinity. *)
Definition finite (dt : dtype) (x : Q) : Prop :=
  (Qabs x <= max_float dt)%Q.

End Float.

Export Float.

(** ** Comparisons on tensor entries *)

Definition Qltb (x y : Q) : bool := negb (Qle_bool y x).
Definition Qgeb (x y : Q) : bool := Qle_bool y x.

(** ** Rank-2 tensors with a dtype and a static shape

    [tf.shape(t)[0]] is the number of rows and [tf.shape(t)[1]] the number of
    columns; the latter is kept explicitly because a tensor of shape [[0, m]]
    has no row to read it from. *)

Record Tensor2 : Type := mkTensor2 {
  t_dtype : dtype;
  t_cols : nat;
  t_rows : list (list Q)
}.

(** [tf.constant(rows, dtype=dt)]: the entries are converted to [dt]. *)
Definition tf_constant (dt : dtype) (cols : nat) (rows : list (list Q))
    : Tensor2 :=
  mkTensor2 dt cols (map (map (cast dt)) rows).

Definition shape0 (t : Tensor2) : nat := length (t_rows t).
Definition shape1 (t : Tensor2) : nat := t_cols t.

(** [t[i, j]].  The functions below only use indices inside the shape; an
    entry that a malformed row lacks reads as 0. *)
Definition entry (t : Tensor2) (i j : nat) : Q :=
  default 0%Q (t_rows t !! i ≫= fun row => row !! j).

(** ** The greedy matcher *)

Module Matcher.

(** [tf.TensorArray(tf.int32, size=n)]: [n] slots, written functionally. *)
Definition TensorArray (size : nat) : list Z := replicate size 0.
Definition ta_write (ta : list Z) (i : nat) (v : Z) : list Z := <[i := v]> ta.
Definition ta_read (ta : list Z) (i : nat) : Z := default 0 (ta !! i).

(** The Python expression [1 - 1e-10]: a double, the literal [1e-10] and the
    difference each rounded to double precision
    ([562949953365017 / 2^49]). *)
Definition one_minus_eps : Q :=
  cast float64 (1 - cast float64 (1 # 10000000000)).

(** Body of [for gt_idx in tf.range(num_true)]; the state is
    [(match_index, iou)]. *)
Definition scan_gt (ious : Tensor2) (gt_matches : list Z) (detection_idx : nat)
    (st : Z * Q) (gt_idx : nat) : Z * Q :=
  let '(match_index, iou) := st in
  if bool_decide (ta_read gt_matches gt_idx > -1) then st
  else if Qltb (entry ious gt_idx detection_idx) iou then st
  else (Z.of_nat gt_idx, entry ious gt_idx detection_idx).

(** [tf.math.minimum(threshold, 1 - 1e-10)].  The result is compared with
    entries of the IoU tensor, which TensorFlow only does within one dtype
    [dt]: [threshold] is a scalar of that dtype (for a float32 tensor, a
    Python float does as well), and both scalars are converted to it. *)
Definition start_iou (dt : dtype) (threshold : Q) : Q :=
  Qmin (cast dt threshold) (cast dt one_minus_eps).

(** The inner loop over the first [n] ground truths, started from
    [match_index = -1] and [iou = min(threshold, 1 - 1e-10)]. *)
Definition scan (ious : Tensor2) (threshold : Q) (gt_matches : list Z)
    (detection_idx n : nat) : Z * Q :=
  fold_left (scan_gt ious gt_matches detection_idx)
            (seq 0 n) (-1, start_iou (t_dtype ious) threshold).

(** The inner loop for one detection. *)
Definition best_gt (ious : Tensor2) (threshold : Q) (gt_matches : list Z)
    (detection_idx : nat) : Z * Q :=
  let num_true := shape0 ious in
  scan ious threshold gt_matches detection_idx num_true.

(** Body of [for detection_idx in tf.range(num_pred)]; the state is
    [(gt_matches, pred_matches)]. *)
Definition match_detection (ious : Tensor2) (threshold : Q)
    (st : list Z * list Z) (detection_idx : nat) : list Z * list Z :=
  let '(gt_matches, pred_matches) := st in
  let match_index := fst (best_gt ious threshold gt_matches detection_idx) in
  let pred_matches := ta_write pred_matches detection_idx match_index in
  if bool_decide (match_index = -1) then (gt_matches, pred_matches)
  else (ta_write gt_matches (Z.to_nat match_index) (Z.of_nat detection_idx),
        pred_matches).

(** The two initialisation loops, which write [-1] into every slot. *)
Definition fill_minus_one (size : nat) : list Z :=
  fold_left (fun ta i => ta_write ta i (-1)) (seq 0 size) (TensorArray size).

(** The run of the outer loop over the first [k] detections. *)
Definition match_loop (ious : Tensor2) (threshold : Q) (k : nat)
    : list Z * list Z :=
  fold_left (match_detection ious threshold) (seq 0 k)
            (fill_minus_one (shape0 ious), fill_minus_one (shape1 ious)).

Definition match_boxes (ious : Tensor2) (threshold : Q) : list Z :=
  let num_pred := shape1 ious in
  snd (match_loop ious threshold num_pred).

End Matcher.

(** ** Filters on box tensors of shape [[n, 4+]] *)

(** Modelled from the spec: the column constants of
    [keras_cv.bounding_box.XYXY], whose module is not among the sources; the
    spec gives the corner format as [(left, top, right, bottom)]. *)
Module XYXY.
Definition LEFT : nat := 0.
Definition TOP : nat := 1.
Definition RIGHT : nat := 2.
Definition BOTTOM : nat := 3.
End XYXY.

(** [tf.where(mask)] on a rank-1 mask: the positions holding [true], in
    increasing order (each is an index vector of length one). *)
Fixpoint where_from (i : nat) (mask : list bool) : list nat :=
  match mask with
  | [] => []
  | b :: mask' =>
      if b then i :: where_from (S i) mask' else where_from (S i) mask'
  end.
Definition tf_where (mask : list bool) : list nat := where_from 0 mask.

(** [boxes[..., k]] and [boxes[:, k]]: column [k] of a rank-2 tensor. *)
Definition column (boxes : Tensor2) (k : nat) : result (list Q) :=
  if bool_decide (k < t_cols boxes)%nat
  then Ok (map (fun row => default 0%Q (row !! k)) (t_rows boxes))
  else Err IndexOutOfRange.

(** [tf.gather_nd(boxes, inds)] with index vectors of length one: the rows
    at the positions [inds]. *)
Definition gather_rows (boxes : Tensor2) (inds : list nat) : result Tensor2 :=
  match mapM (fun i => t_rows boxes !! i) inds with
  | Some rows => Ok (mkTensor2 (t_dtype boxes) (t_cols boxes) rows)
  | None => Err IndexOutOfRange
  end.

(** The float subtraction and multiplication of the dtype [dt]. *)
Definition fsub (dt : dtype) (x y : Q) : Q := cast dt (x - y).
Definition fmul (dt : dtype) (x y : Q) : Q := cast dt (x * y).

Definition bounding_box_area (boxes : Tensor2) : result (list Q) :=
  right ← column boxes XYXY.RIGHT;
  left ← column boxes XYXY.LEFT;
  bottom ← column boxes XYXY.BOTTOM;
  top ← column boxes XYXY.TOP;
  let w := zip_with (fsub (t_dtype boxes)) right left in
  let h := zip_with (fsub (t_dtype boxes)) bottom top in
  Ok (zip_with (fmul (t_dtype boxes)) w h).

(** [tf.math.logical_and(areas >= min_area, areas < max_area)]: the two
    Python scalars are converted to the dtype of [areas]. *)
Definition area_mask (dt : dtype) (areas : list Q) (min_area max_area : Q)
    : list bool :=
  map (fun a => Qgeb a (cast dt min_area) && Qltb a (cast dt max_area)) areas.

Definition filter_boxes_by_area_range (boxes : Tensor2) (min_area max_area : Q)
    : result Tensor2 :=
  areas ← bounding_box_area boxes;
  let inds := tf_where (area_mask (t_dtype boxes) areas min_area max_area) in
  gather_rows boxes inds.

(** The index list [inds] of [filter_boxes_by_area_range]. *)
Definition area_range_inds (boxes : Tensor2) (min_area max_area : Q)
    : result (list nat) :=
  areas ← bounding_box_area boxes;
  Ok (tf_where (area_mask (t_dtype boxes) areas min_area max_area)).

(** [boxes[:, axis] == value]: the Python scalar is converted to the dtype
    of the column. *)
Definition eq_mask (dt : dtype) (col : list Q) (value : Q) : list bool :=
  map (fun c => Qeq_bool c (cast dt value)) col.

Definition filter_boxes (boxes : Tensor2) (value : Q) (axis : nat)
    : result Tensor2 :=
  col ← column boxes axis;
  gather_rows boxes (tf_where (eq_mask (t_dtype boxes) col value)).

(** The index list [tf.where(boxes[:, axis] == value)] of [filter_boxes]. *)
Definition filter_boxes_inds (boxes : Tensor2) (value : Q) (axis : nat)
    : result (list nat) :=
  col ← column boxes axis;
  Ok (tf_where (eq_mask (t_dtype boxes) col value)).

Definition default_axis : nat := 4.

(** ** Tensors of any rank, and dictionaries of them

    The dictionary functions only slice, pad and gather along leading axes, so
    a tensor is the nested sequence of its entries: [Stack ts] is the tensor
    whose slices along axis 0 are [ts].  (An empty axis is [Stack []]; the
    dimensions after it are not recorded.)  The same type, before padding,
    is a ragged tensor. *)

#[local] Unset Elimination Schemes.
Inductive tensor (A : Type) : Type :=
| Scalar (x : A)
| Stack (ts : list (tensor A)).
#[local] Set Elimination Schemes.
Arguments Scalar {A} x.
Arguments Stack {A} ts.

(** Induction over a tensor, with the hypothesis on every slice. *)
Fixpoint tensor_ind {A : Type} (P : tensor A → Prop)
    (HScalar : ∀ x, P (Scalar x))
    (HStack : ∀ ts, Forall P ts → P (Stack ts))
    (t : tensor A) : P t :=
  match t with
  | Scalar x => HScalar x
  | Stack ts =>
      HStack ts
        ((fix all (l : list (tensor A)) : Forall P l :=
            match l with
            | [] => Forall_nil_2 P
            | c :: l' =>
                Forall_cons_2 P c l' (tensor_ind P HScalar HStack c) (all l')
            end) ts)
  end.

Module Tensor.

(** Elementwise application, as in [classes != -1]. *)
Fixpoint tmap {A B : Type} (f : A → B) (t : tensor A) : tensor B :=
  match t with
  | Scalar x => Scalar (f x)
  | Stack ts => Stack (map (tmap f) ts)
  end.

(** [pmax] is the entrywise maximum of two shapes; the longer one gives the
    entries the shorter one lacks. *)
Fixpoint pmax (s1 s2 : list nat) : list nat :=
  match s1, s2 with
  | [], _ => s2
  | _, [] => s1
  | n1 :: s1', n2 :: s2' => Nat.max n1 n2 :: pmax s1' s2'
  end.

(** The bounding shape of a ragged tensor. *)
Fixpoint bshape {A : Type} (t : tensor A) : list nat :=
  match t with
  | Scalar _ => []
  | Stack ts => length ts :: foldr pmax [] (map bshape ts)
  end.

(** [t.shape.rank], as far as the entries show it (see above for an empty
    axis). *)
Definition rank {A : Type} (t : tensor A) : nat := length (bshape t).

(** The tensor of shape [sh] whose entries all are [d]. *)
Fixpoint fill {A : Type} (d : A) (sh : list nat) : tensor A :=
  match sh with
  | [] => Scalar d
  | n :: sh' => Stack (replicate n (fill d sh'))
  end.

(** [ragged.to_tensor(default_value=d)] to the shape [sh]: every axis is
    filled up at its end with [d].  A ragged tensor whose parts differ in
    rank is not one TensorFlow can build. *)
Fixpoint pad {A : Type} (d : A) (sh : list nat) (t : tensor A)
    : result (tensor A) :=
  match sh, t with
  | [], Scalar x => Ok (Scalar x)
  | n :: sh', Stack ts =>
      ts' ← (fix pad_all (l : list (tensor A)) : result (list (tensor A)) :=
               match l with
               | [] => Ok []
               | c :: l' =>
                   c' ← pad d sh' c; r ← pad_all l'; Ok (c' :: r)
               end) ts;
      Ok (Stack (ts' ++ replicate (n - length ts) (fill d sh')))
  | _, _ => Err InvalidArgumentError
  end.

(** [t[index, ...]] for a Python integer [index]: a negative index counts
    from the end of axis 0, and an index outside [[-n, n)] is refused
    (TensorFlow: "slice index out of bounds"). *)
Definition getitem0 {A : Type} (t : tensor A) (index : Z)
    : result (tensor A) :=
  match t with
  | Scalar _ => Err InvalidArgumentError
  | Stack ts =>
      let n := Z.of_nat (length ts) in
      let i := if bool_decide (index < 0) then index + n else index in
      if bool_decide (0 ≤ i < n)
      then match ts !! Z.to_nat i with
           | Some c => Ok c
           | None => Err IndexOutOfRange
           end
      else Err IndexOutOfRange
  end.

(** The index vectors of the [true] entries of a mask, in row-major
    order. *)
Fixpoint true_indices (mask : tensor bool) : list (list nat) :=
  match mask with
  | Scalar b => if b then [[]] else []
  | Stack ts =>
      (fix where_from (i : nat) (l : list (tensor bool)) : list (list nat) :=
         match l with
         | [] => []
         | c :: l' => map (cons i) (true_indices c) ++ where_from (S i) l'
         end) 0%nat ts
  end.

(** [tf.where(mask)]: the index vectors of the [true] entries; TensorFlow
    refuses a mask of rank 0. *)
Definition tf_where (mask : tensor bool) : result (list (list nat)) :=
  match mask with
  | Scalar _ => Err InvalidArgumentError
  | Stack _ => Ok (true_indices mask)
  end.

(** [params[i1, ..., ik]] for an index vector [[i1; ...; ik]]. *)
Fixpoint at_index {A : Type} (params : tensor A) (ix : list nat)
    : result (tensor A) :=
  match ix with
  | [] => Ok params
  | i :: ix' =>
      match params with
      | Scalar _ => Err InvalidArgumentError
      | Stack ts =>
          match ts !! i with
          | Some c => at_index c ix'
          | None => Err IndexOutOfRange
          end
      end
  end.

Fixpoint mapM_result {A B : Type} (f : A → result B) (l : list A)
    : result (list B) :=
  match l with
  | [] => Ok []
  | x :: l' => y ← f x; r ← mapM_result f l'; Ok (y :: r)
  end.

(** [tf.gather_nd(params, indices)] *)
Definition gather_nd {A : Type} (params : tensor A) (indices : list (list nat))
    : result (tensor A) :=
  slices ← mapM_result (at_index params) indices;
  Ok (Stack slices).

End Tensor.

(** Rank-1 and rank-2 tensors from their entries. *)
Definition vec (l : list Q) : tensor Q := Stack (Scalar <$> l).
Definition mat (l : list (list Q)) : tensor Q := Stack (vec <$> l).

(** [{"boxes": b, "classes": c, "confidence": f}] *)
Definition bounding_boxes_dict (b c f : tensor Q) : gmap string (tensor Q) :=
  <["boxes" := b]> (<["classes" := c]> (<["confidence" := f]> ∅)).

(** [bounding_boxes[key]] *)
Definition getitem (d : gmap string (tensor Q)) (key : string)
    : result (tensor Q) :=
  match d !! key with
  | Some t => Ok t
  | None => Err (KeyError key)
  end.

(** [tf.ragged.stack(values)]: the ragged tensor whose slices along axis 0
    are [values]; an empty list is refused ("rt_inputs may not be
    empty"). *)
Definition ragged_stack (values : list (tensor Q)) : result (tensor Q) :=
  match values with
  | [] => Err ValueError
  | _ :: _ => Ok (Stack values)
  end.

(** [tf.ragged.stack(box_sets).to_tensor(default_value=-1)] *)
Definition to_sentinel_padded_bounding_box_tensor (box_sets : list (tensor Q))
    : result (tensor Q) :=
  ragged ← ragged_stack box_sets;
  Tensor.pad (-1)%Q (Tensor.bshape ragged) ragged.

Definition get_boxes_for_image (bounding_boxes : gmap string (tensor Q))
    (index : Z) : result (gmap string (tensor Q)) :=
  boxes ← getitem bounding_boxes "boxes";
  classes ← getitem bounding_boxes "classes";
  confidence ← getitem bounding_boxes "confidence";
  b ← Tensor.getitem0 boxes index;
  c ← Tensor.getitem0 classes index;
  f ← Tensor.getitem0 confidence index;
  Ok (bounding_boxes_dict b c f).

Definition filter_out_sentinels (bounding_boxes : gmap string (tensor Q))
    : result (gmap string (tensor Q)) :=
  boxes ← getitem bounding_boxes "boxes";
  classes ← getitem bounding_boxes "classes";
  confidence ← getitem bounding_boxes "confidence";
  indices ←
    Tensor.tf_where (Tensor.tmap (fun c => negb (Qeq_bool c (-1))) classes);
  b ← Tensor.gather_nd boxes indices;
  c ← Tensor.gather_nd classes indices;
  f ← Tensor.gather_nd confidence indices;
  Ok (bounding_boxes_dict b c f).

(** *** Sorting by confidence *)

Module TopK.

(** Insertion into a list of [(index, value)] pairs kept in non-increasing
    order of value; the inserted pair goes in front of the pairs of equal
    value. *)
Fixpoint insert_desc (p : nat * Q) (l : list (nat * Q)) : list (nat * Q) :=
  match l with
  | [] => [p]
  | q :: l' =>
      if Qltb (snd p) (snd q) then q :: insert_desc p l' else p :: q :: l'
  end.

Definition sort_desc (l : list (nat * Q)) : list (nat * Q) :=
  foldr insert_desc [] l.

(** The entries of a rank-1 tensor. *)
Fixpoint scalars {A : Type} (ts : list (tensor A)) : option (list A) :=
  match ts with
  | [] => Some []
  | Scalar x :: ts' => l ← scalars ts'; Some (x :: l)
  | Stack _ :: _ => None
  end.

(** The indices returned by [tf.math.top_k(v, k)] for a rank-1 [v]: the
    positions of the [k] largest entries, largest first, and among equal
    entries the lower position first.  TensorFlow refuses a [k] beyond the
    length of [v]. *)
Definition top_k_indices (v : list Q) (k : nat) : result (list nat) :=
  if bool_decide (k ≤ length v)%nat
  then Ok (take k (fst <$> sort_desc (zip (seq 0 (length v)) v)))
  else Err InvalidArgumentError.

(** [tf.math.top_k(t, k)[1]]: along the last axis. *)
Fixpoint top_k (t : tensor Q) (k : nat) : result (tensor nat) :=
  match t with
  | Scalar _ => Err InvalidArgumentError
  | Stack ts =>
      match scalars ts with
      | Some v => idx ← top_k_indices v k; Ok (Stack (Scalar <$> idx))
      | None =>
          l ← (fix top_k_all (l : list (tensor Q)) : result (list (tensor nat)) :=
                 match l with
                 | [] => Ok []
                 | c :: l' => c' ← top_k c k; r ← top_k_all l'; Ok (c' :: r)
                 end) ts;
          Ok (Stack l)
      end
  end.

(** [tf.gather(params, idx, axis=0)] *)
Fixpoint gather {A : Type} (params : tensor A) (idx : tensor nat)
    : result (tensor A) :=
  match idx with
  | Scalar i => Tensor.at_index params [i]
  | Stack l =>
      l' ← (fix gather_all (l : list (tensor nat)) : result (list (tensor A)) :=
              match l with
              | [] => Ok []
              | c :: l' => c' ← gather params c; r ← gather_all l'; Ok (c' :: r)
              end) l;
      Ok (Stack l')
  end.

End TopK.

(** [tf.shape(t)[0]] *)
Definition tf_shape0 {A : Type} (t : tensor A) : result nat :=
  match t with
  | Scalar _ => Err InvalidArgumentError
  | Stack ts => Ok (length ts)
  end.

(** The value of a name that is not a local variable of the function. *)
Definition load_global (globals : gmap string (tensor Q)) (name : string)
    : result (tensor Q) :=
  match globals !! name with
  | Some t => Ok t
  | None => Err (NameError name)
  end.

(** [order_by_confidence] reads [preds_for_img], which is neither a parameter
    nor assigned in its body: the name is looked up among the globals of the
    module. *)
Definition order_by_confidence (globals : gmap string (tensor Q))
    (bounding_boxes : gmap string (tensor Q))
    : result (gmap string (tensor Q)) :=
  if bool_decide (bounding_boxes !! "confidence" = None) then Err ValueError
  else
    boxes ← getitem bounding_boxes "boxes";
    classes ← getitem bounding_boxes "classes";
    confidence ← getitem bounding_boxes "confidence";
    if bool_decide (Tensor.rank boxes ≠ 2%nat) then Err ValueError
    else
      preds_for_img ← load_global globals "preds_for_img";
      k ← tf_shape0 preds_for_img;
      idx ← TopK.top_k confidence k;
      boxes ← getitem bounding_boxes "boxes";
      classes ← getitem bounding_boxes "classes";
      confidence ← getitem bounding_boxes "confidence";
      boxes ← TopK.gather boxes idx;
      classes ← TopK.gather classes idx;
      confidence ← TopK.gather confidence idx;
      Ok (bounding_boxes_dict boxes classes confidence).

(** The module imports [tensorflow] and [keras_cv.bounding_box] and defines
    its functions; it binds no name to a tensor, and none of its names is
    [preds_for_img]. *)
Definition module_globals : gmap string (tensor Q) := ∅.

Import Matcher.

(** ** Notions used in the statements *)

(** Ground truth [i] is still unmatched when detection [j] is processed: no
    earlier detection was matched to it. *)
Definition unmatched_before (matches : list Z) (j i : nat) : Prop :=
  ∀ j', (j' < j)%nat → matches !! j' ≠ Some (Z.of_nat i).

(** The invariant of the outer loop of the matcher, after the first [k]
    detections: every matched ground truth points at its detection and every
    matched detection at its ground truth. *)
Definition loop_inv (ious : Tensor2) (k : nat) (st : list Z * list Z) : Prop :=
  let '(gt, pm) := st in
  length gt = shape0 ious ∧ length pm = shape1 ious ∧
  (∀ i v, gt !! i = Some v →
     v = -1 ∨ (0 ≤ v < Z.of_nat k ∧ pm !! Z.to_nat v = Some (Z.of_nat i))) ∧
  (∀ j m, (j < k)%nat → pm !! j = Some m →
     m = -1 ∨ (0 ≤ m < Z.of_nat (shape0 ious) ∧
               gt !! Z.to_nat m = Some (Z.of_nat j))) ∧
  (∀ j, (k ≤ j < shape1 ious)%nat → pm !! j = Some (-1)).

(** The matched entries of a match result. *)
Definition matched (matches : list Z) : list Z :=
  filter (fun m => m ≠ -1) matches.

(** The class label of a row: its entry in column [axis]. *)
Definition class_of (axis : nat) (row : list Q) : Q := default 0%Q (row !! axis).

(** The area of a row in corner format as a real number, in the words of
    the spec: [(right - left) * (bottom - top)]. *)
Definition exact_area (row : list Q) : Q :=
  ((default 0 (row !! XYXY.RIGHT) - default 0 (row !! XYXY.LEFT))
   * (default 0 (row !! XYXY.BOTTOM) - default 0 (row !! XYXY.TOP)))%Q.

(** The same area computed in the floats of [dt]: the two differences and
    their product are each rounded. *)
Definition box_area (dt : dtype) (row : list Q) : Q :=
  fmul dt
    (fsub dt (default 0%Q (row !! XYXY.RIGHT)) (default 0%Q (row !! XYXY.LEFT)))
    (fsub dt (default 0%Q (row !! XYXY.BOTTOM)) (default 0%Q (row !! XYXY.TOP))).

(** The two differences and the product that give the area of [row] stay
    finite. *)
Definition area_finite (dt : dtype) (row : list Q) : Prop :=
  finite dt (fsub dt (default 0%Q (row !! XYXY.RIGHT))
                     (default 0%Q (row !! XYXY.LEFT))) ∧
  finite dt (fsub dt (default 0%Q (row !! XYXY.BOTTOM))
                     (default 0%Q (row !! XYXY.TOP))) ∧
  finite dt (box_area dt row).

(** The half-open area bucket [[min_area, max_area)] in the floats of [dt]:
    the computed area against the converted bounds. *)
Definition in_area_range (dt : dtype) (min_area max_area : Q) (row : list Q)
    : Prop :=
  (cast dt min_area <= box_area dt row)%Q ∧
  (box_area dt row < cast dt max_area)%Q.

#[global] Instance Qeq_decision (x y : Q) : Decision (x == y)%Q := Qeq_dec x y.
#[global] Instance Qle_decision (x y : Q) : Decision (x <= y)%Q.
Proof.
  destruct (Qlt_le_dec y x) as [H | H]; [right | left; exact H].
  intros H'. exact (Qlt_not_le _ _ H H').
Defined.
#[global] Instance Qlt_decision (x y : Q) : Decision (x < y)%Q.
Proof.
  destruct (Qlt_le_dec x y) as [H | H]; [left; exact H | right].
  intros H'. exact (Qlt_not_le _ _ H' H).
Defined.
#[global] Instance in_area_range_decision dt a b row :
  Decision (in_area_range dt a b row).
Proof. unfold in_area_range. apply _. Defined.

(** [t] is a dense tensor of shape [sh]. *)
Fixpoint has_shape {A : Type} (sh : list nat) (t : tensor A) : Prop :=
  match sh, t with
  | [], Scalar _ => True
  | n :: sh', Stack ts => length ts = n ∧ Forall (has_shape sh') ts
  | _, _ => False
  end.

(** The part of a shape that the entries show: nothing is recorded behind an
    empty axis. *)
Fixpoint visible_shape (sh : list nat) : list nat :=
  match sh with
  | [] => []
  | O :: _ => [O]
  | n :: sh' => n :: visible_shape sh'
  end.

(** A class label that is not the sentinel. *)
Definition not_sentinel (c : Q) : Prop := ¬ (c == -1)%Q.

(** The batch made of the single box set [box_set]: each of the tensors it
    holds is padded on its own, as a list of one tensor. *)
Definition batch_of_one (box_set : gmap string (tensor Q))
    : result (gmap string (tensor Q)) :=
  foldr (fun key acc =>
           batch ← acc;
           match box_set !! key with
           | Some t =>
               padded ← to_sentinel_padded_bounding_box_tensor [t];
               Ok (<[key := padded]> batch)
           | None => Ok batch
           end)
        (Ok ∅) ["boxes"; "classes"; "confidence"].

(** Pad the singleton batch, take image 0, strip the sentinel rows. *)
Definition round_trip (box_set : gmap string (tensor Q))
    : result (gmap string (tensor Q)) :=
  batch ← batch_of_one box_set;
  image ← get_boxes_for_image batch 0;
  filter_out_sentinels image.

(** The coordinate in column [k] of a row in corner format. *)
Definition corner (k : nat) (row : list Q) : Q := default 0%Q (row !! k).


(** The entries of [xs] at the positions where [mask] holds. *)
Fixpoint select {A : Type} (mask : list bool) (xs : list A) : list A :=
  match mask, xs with
  | b :: mask', x :: xs' =>
      if b then x :: select mask' xs' else select mask' xs'
  | _, _ => []
  end.

(** [classes != -1] on the entries of a rank-1 tensor. *)
Definition sentinel_mask (cs : list Q) : list bool :=
  map (fun c => negb (Qeq_bool c (-1))) cs.

(** The slices [ts] followed by slices of shape [sh] filled with [d], up to
    [n] slices in all. *)
Definition pad_rows {A : Type} (d : A) (sh : list nat) (n : nat)
    (ts : list (tensor A)) : list (tensor A) :=
  ts ++ replicate (n - length ts) (Tensor.fill d sh).

(** One image: its boxes, its class labels and its confidences. *)
Definition image : Type := list (tensor Q) * list Q * list (tensor Q).

Definition image_boxes (im : image) : list (tensor Q) := fst (fst im).
Definition image_classes (im : image) : list Q := snd (fst im).
Definition image_confidence (im : image) : list (tensor Q) := snd im.

(** The box set of one image. *)
Definition box_set_of (im : image) : gmap string (tensor Q) :=
  bounding_boxes_dict (Stack (image_boxes im)) (vec (image_classes im))
                      (Stack (image_confidence im)).

(** The three sequences of an image are parallel, the boxes have the shape
    [shb] and the confidences the shape [shf], and no class is [-1]. *)
Definition image_ok (shb shf : list nat) (im : image) : Prop :=
  length (image_boxes im) = length (image_classes im) ∧
  length (image_confidence im) = length (image_classes im) ∧
  Forall (has_shape shb) (image_boxes im) ∧
  Forall (has_shape shf) (image_confidence im) ∧
  Forall not_sentinel (image_classes im).

(** The padded batch of a list of images: boxes, classes and confidences are
    each padded with [to_sentinel_padded_bounding_box_tensor]. *)
Definition batch_of (images : list image) : result (gmap string (tensor Q)) :=
  b ← to_sentinel_padded_bounding_box_tensor
         ((fun im => Stack (image_boxes im)) <$> images);
  c ← to_sentinel_padded_bounding_box_tensor
         ((fun im => vec (image_classes im)) <$> images);
  f ← to_sentinel_padded_bounding_box_tensor
         ((fun im => Stack (image_confidence im)) <$> images);
  Ok (bounding_boxes_dict b c f).

(** The largest number of boxes of an image. *)
Definition max_boxes (images : list image) : nat :=
  max_list ((fun im => length (image_classes im)) <$> images).

(** The entry of a list at a Python index: a negative index counts from the
    end. *)
Definition py_index {A : Type} (l : list A) (index : Z) : option A :=
  if bool_decide (0 ≤ index) then l !! Z.to_nat index
  else if bool_decide (- Z.of_nat (length l) ≤ index)
       then l !! Z.to_nat (index + Z.of_nat (length l))
       else None.

(** * Properties *)

(** ** Floating-point rounding *)

Lemma pow2_pos e : (0 < pow2 e)%Q.
Proof. apply Qpower_0_lt. reflexivity. Qed.

Lemma pow2_S e : (pow2 (e + 1) == 2 * pow2 e)%Q.
Proof.
  unfold pow2. rewrite Qpower_plus by discriminate. rewrite Qmult_comm. reflexivity.
Qed.

Lemma pow2_le a b : a <= b -> (pow2 a <= pow2 b)%Q.
Proof. intros. apply Qpower_le_compat_l; [done | discriminate]. Qed.

Lemma pow2_lt_inv a b : (pow2 a < pow2 b)%Q -> a < b.
Proof. intros. eapply Qpower_lt_compat_l_inv; [eassumption | reflexivity]. Qed.

Lemma pow2_plus a b : (pow2 (a + b) == pow2 a * pow2 b)%Q.
Proof. unfold pow2. by rewrite Qpower_plus. Qed.

Lemma pow2_inject n : 0 <= n -> (inject_Z (2 ^ n) == pow2 n)%Q.
Proof. intros. unfold pow2. by rewrite Zpower_Qpower. Qed.

Lemma log2_bounds n :
  0 < n -> (pow2 (Z.log2 n) <= inject_Z n)%Q /\ (inject_Z n < 2 * pow2 (Z.log2 n))%Q.
Proof.
  intros Hn. destruct (Z.log2_spec n Hn) as [Hlo Hhi].
  pose proof (Z.log2_nonneg n) as Hnn.
  rewrite <- pow2_S, <- !pow2_inject by lia.
  rewrite <- Zle_Qle, <- Zlt_Qlt. rewrite <- Z.add_1_r in Hhi. by split.
Qed.

Lemma mag_spec x :
  (0 < x)%Q -> (pow2 (mag x - 1) <= x)%Q /\ (x < pow2 (mag x))%Q.
Proof.
  intros Hx. unfold mag.
  set (a := Z.log2 (Qnum x)). set (b := Z.log2 (Zpos (Qden x))).
  assert (0 < Qnum x) as Hn.
  { destruct x as [n d]. unfold Qlt in Hx. cbn in *. lia. }
  destruct (log2_bounds (Qnum x) Hn) as [Ha1 Ha2].
  destruct (log2_bounds (Zpos (Qden x)) ltac:(lia)) as [Hb1 Hb2].
  fold a in Ha1, Ha2. fold b in Hb1, Hb2.
  assert (x * inject_Z (Zpos (Qden x)) == inject_Z (Qnum x))%Q as Hxd.
  { destruct x as [n d]. unfold Qeq, Qmult, inject_Z. cbn. lia. }
  assert (pow2 (a - b) * pow2 b == pow2 a)%Q as Hk.
  { rewrite <- pow2_plus. by replace (a - b + b) with a by lia. }
  pose proof (pow2_pos (a - b)) as HP. pose proof (pow2_pos b) as HB.
  pose proof (pow2_pos a) as HA.
  assert (0 < inject_Z (Zpos (Qden x)))%Q as Hd by (by rewrite <- (Zlt_Qlt 0)).
  destruct (Qle_bool (pow2 (a - b)) x) eqn:Hle.
  - apply Qle_bool_iff in Hle. replace (a - b + 1 - 1) with (a - b) by lia.
    split; [done |]. rewrite pow2_S.
    generalize dependent (pow2 (a - b)). generalize dependent (pow2 a).
    generalize dependent (pow2 b).
    generalize dependent (inject_Z (Zpos (Qden x))).
    generalize dependent (inject_Z (Qnum x)). intros. nra.
  - assert (x < pow2 (a - b))%Q as Hlt.
    { apply Qnot_le_lt. intros H. apply Qle_bool_iff in H. congruence. }
    split; [| done].
    assert (pow2 (a - b) == 2 * pow2 (a - b - 1))%Q as HS.
    { rewrite <- pow2_S. by replace (a - b - 1 + 1) with (a - b) by lia. }
    pose proof (pow2_pos (a - b - 1)) as HP'.
    generalize dependent (pow2 (a - b - 1)).
    generalize dependent (pow2 (a - b)). generalize dependent (pow2 a).
    generalize dependent (pow2 b).
    generalize dependent (inject_Z (Zpos (Qden x))).
    generalize dependent (inject_Z (Qnum x)). intros. nra.
Qed.

Lemma mag_mono x y : (0 < x)%Q -> (x <= y)%Q -> mag x <= mag y.
Proof.
  intros Hx Hxy.
  destruct (mag_spec x Hx) as [Hlo _].
  destruct (mag_spec y (Qlt_le_trans _ _ _ Hx Hxy)) as [_ Hhi].
  assert (pow2 (mag x - 1) < pow2 (mag y))%Q as H.
  { eapply Qle_lt_trans; [exact Hlo |]. by eapply Qle_lt_trans. }
  apply pow2_lt_inv in H. lia.
Qed.

Lemma rne_cases s : rne s = Qfloor s \/ rne s = Qfloor s + 1.
Proof. unfold rne. destruct (_ ?= _)%Q; [destruct (Z.even _) | |]; auto. Qed.

Lemma rne_mono s t : (s <= t)%Q -> rne s <= rne t.
Proof.
  intros Hst. pose proof (Qfloor_resp_le _ _ Hst) as Hf.
  destruct (Z.eq_dec (Qfloor s) (Qfloor t)) as [Heq | Hne].
  - unfold rne. rewrite <- Heq.
    destruct (s - inject_Z (Qfloor s) ?= 1 # 2)%Q eqn:Hs;
      destruct (t - inject_Z (Qfloor s) ?= 1 # 2)%Q eqn:Ht;
      first [apply Qeq_alt in Hs | apply Qlt_alt in Hs | apply Qgt_alt in Hs];
      first [apply Qeq_alt in Ht | apply Qlt_alt in Ht | apply Qgt_alt in Ht];
      try (destruct (Z.even (Qfloor s))); try lia; exfalso; lra.
  - destruct (rne_cases s) as [-> | ->], (rne_cases t) as [-> | ->]; lia.
Qed.

Lemma rne_inject n : rne (inject_Z n) = n.
Proof.
  unfold rne. rewrite Qfloor_Z.
  assert ((inject_Z n - inject_Z n ?= 1 # 2)%Q = Lt) as ->; [| done].
  rewrite <- Qlt_alt. lra.
Qed.

Lemma rne_ge n s : (inject_Z n <= s)%Q -> n <= rne s.
Proof. intros H. rewrite <- (rne_inject n). by apply rne_mono. Qed.

Lemma rne_le n s : (s <= inject_Z n)%Q -> rne s <= n.
Proof. intros H. rewrite <- (rne_inject n). by apply rne_mono. Qed.

Section Round.

Variables p e_min : Z.
Hypothesis Hp : 1 <= p.

Lemma round_pos_nonneg x : (0 < x)%Q -> (0 <= round_pos p e_min x)%Q.
Proof.
  intros Hx. unfold round_pos.
  apply Qmult_le_0_compat; [| apply Qlt_le_weak, pow2_pos].
  rewrite <- (Zle_Qle 0). apply rne_ge.
  apply Qlt_le_weak, Qlt_shift_div_l; [apply pow2_pos |].
  change (inject_Z 0) with 0%Q. by rewrite Qmult_0_l.
Qed.

Lemma round_pos_mono x y :
  (0 < x)%Q -> (x <= y)%Q -> (round_pos p e_min x <= round_pos p e_min y)%Q.
Proof.
  intros Hx Hxy. assert (0 < y)%Q as Hy by lra.
  pose proof (mag_mono x y Hx Hxy) as Hmag.
  destruct (mag_spec x Hx) as [_ Hxhi]. destruct (mag_spec y Hy) as [Hylo _].
  unfold round_pos.
  set (ex := Z.max (mag x - p) e_min). set (ey := Z.max (mag y - p) e_min).
  assert (ex <= ey) as He by lia.
  pose proof (pow2_pos ex) as Hpx. pose proof (pow2_pos ey) as Hpy.
  destruct (Z.eq_dec ex ey) as [Heq | Hne].
  - rewrite <- Heq. apply Qmult_le_compat_r; [| lra].
    rewrite <- Zle_Qle. apply rne_mono.
    apply Qmult_le_compat_r; [done |]. apply Qlt_le_weak, Qinv_lt_0_compat. done.
  - assert (ey = mag y - p) as Hey by lia.
    (* round x <= 2^(p + ex) *)
    assert (inject_Z (rne (x / pow2 ex)) <= pow2 p)%Q as Hrx.
    { rewrite <- (pow2_inject p) by lia. rewrite <- Zle_Qle. apply rne_le.
      rewrite (pow2_inject p) by lia. apply Qle_shift_div_r; [done |].
      rewrite <- pow2_plus. apply Qlt_le_weak.
      eapply Qlt_le_trans; [exact Hxhi |]. apply pow2_le. lia. }
    assert (pow2 (p - 1) <= inject_Z (rne (y / pow2 ey)))%Q as Hry.
    { rewrite <- (pow2_inject (p - 1)) by lia. rewrite <- Zle_Qle.
      apply rne_ge.
      rewrite (pow2_inject (p - 1)) by lia. apply Qle_shift_div_l; [done |].
      rewrite <- pow2_plus. eapply Qle_trans; [| exact Hylo].
      apply pow2_le. lia. }
    apply Qle_trans with (pow2 (p + ex)).
    + rewrite pow2_plus. apply Qmult_le_compat_r; [done | lra].
    + apply Qle_trans with (pow2 (p - 1 + ey)); [apply pow2_le; lia |].
      rewrite pow2_plus. apply Qmult_le_compat_r; [done | lra].
Qed.

Lemma round_sign x :
  match Z.compare 0 (Qnum x) with
  | Lt => (0 < x)%Q
  | Eq => (x == 0)%Q
  | Gt => (x < 0)%Q
  end.
Proof.
  destruct x as [n d]. cbn [Qnum].
  destruct (Z.compare_spec 0 n) as [H | H | H];
    unfold Qlt, Qeq; cbn [Qnum Qden]; lia.
Qed.

Theorem round_mono x y :
  (x <= y)%Q -> (round p e_min x <= round p e_min y)%Q.
Proof.
  intros Hxy. unfold round.
  pose proof (round_sign x) as Hsx. pose proof (round_sign y) as Hsy.
  destruct (Z.compare 0 (Qnum x)), (Z.compare 0 (Qnum y)); try lra.
  - apply round_pos_nonneg. done.
  - by apply round_pos_mono.
  - pose proof (round_pos_nonneg (- x) ltac:(lra)). lra.
  - pose proof (round_pos_nonneg (- x) ltac:(lra)).
    pose proof (round_pos_nonneg y ltac:(lra)). lra.
  - apply Qopp_le_compat. apply round_pos_mono; lra.
Qed.

Lemma round_0 : round p e_min 0 = 0%Q.
Proof. done. Qed.

End Round.

(** Some conversions: [0.1] in both formats, an odd integer above [2^24] in
    float32, the Python expression [1 - 1e-10] as a double and converted to
    float32, and the largest float32. *)
Example cast_values :
  (max_float float32 == 340282346638528859811704183484516925440)%Q ∧
  cast float32 (1 # 10) = (13421773 # 134217728)%Q ∧
  cast float64 (1 # 10) = (3602879701896397 # 36028797018963968)%Q ∧
  cast float32 16777217 = 16777216%Q ∧
  cast float32 16793603 = 16793604%Q ∧
  one_minus_eps = (562949953365017 # 562949953421312)%Q ∧
  cast float32 one_minus_eps = 1%Q ∧
  cast float64 one_minus_eps = one_minus_eps.
Proof. repeat split; by vm_compute. Qed.

(** Conversion to a dtype keeps the order. *)
Lemma cast_mono dt x y : (x <= y)%Q -> (cast dt x <= cast dt y)%Q.
Proof.
  intros. unfold cast. rewrite !Qred_correct.
  apply round_mono; [by destruct dt | done].
Qed.



Lemma cast_Qeq dt x y : (x == y)%Q -> (cast dt x == cast dt y)%Q.
Proof.
  intros H. apply Qle_antisym; apply cast_mono; rewrite H; apply Qle_refl.
Qed.

(** ** Comparisons *)

Lemma Qltb_true x y : Qltb x y = true ↔ (x < y)%Q.
Proof.
  unfold Qltb. rewrite negb_true_iff, <- not_true_iff_false, Qle_bool_iff.
  split; [apply Qnot_le_lt | apply Qlt_not_le].
Qed.

Lemma Qltb_false x y : Qltb x y = false ↔ (y <= x)%Q.
Proof. unfold Qltb. by rewrite negb_false_iff, Qle_bool_iff. Qed.

Lemma Qgeb_true x y : Qgeb x y = true ↔ (y <= x)%Q.
Proof. apply Qle_bool_iff. Qed.

(** ** The greedy matcher *)

Section MatcherProofs.

Variable ious : Tensor2.
Variable threshold : Q.

#[local] Abbreviation init := (start_iou (t_dtype ious) threshold).
#[local] Abbreviation scan := (Matcher.scan ious threshold).

Lemma length_ta_write ta i v : length (ta_write ta i v) = length ta.
Proof. apply length_insert. Qed.

Lemma lookup_ta_write_eq ta i v :
  (i < length ta)%nat → ta_write ta i v !! i = Some v.
Proof. apply list_lookup_insert_eq. Qed.

Lemma lookup_ta_write_ne ta i j v : i ≠ j → ta_write ta i v !! j = ta !! j.
Proof. apply list_lookup_insert_ne. Qed.

Lemma fold_minus_one_spec k ta :
  (k ≤ length ta)%nat →
  length (fold_left (fun ta i => ta_write ta i (-1)) (seq 0 k) ta) = length ta ∧
  ∀ i, (i < k)%nat →
    fold_left (fun ta i => ta_write ta i (-1)) (seq 0 k) ta !! i = Some (-1).
Proof.
  clear. induction k as [|k IH]; intros Hk.
  - split; [done | lia].
  - rewrite seq_S, fold_left_app. cbn [fold_left].
    destruct IH as [Hlen Hget]; [lia |].
    split; [by rewrite length_ta_write |].
    intros i Hi. destruct (decide (i = k)) as [-> | Hne].
    + apply lookup_ta_write_eq. rewrite Hlen. lia.
    + rewrite lookup_ta_write_ne by done. apply Hget. lia.
Qed.

Lemma fill_minus_one_eq size : fill_minus_one size = replicate size (-1).
Proof.
  clear. unfold fill_minus_one, TensorArray.
  destruct (fold_minus_one_spec size (replicate size 0)) as [Hlen Hget].
  { by rewrite length_replicate. }
  rewrite length_replicate in Hlen.
  apply list_eq. intros i.
  destruct (decide (i < size)%nat) as [Hi | Hi].
  - rewrite Hget by done. symmetry. by apply lookup_replicate_2.
  - rewrite !lookup_ge_None_2; [done | rewrite length_replicate; lia | lia].
Qed.

(** *** The inner loop *)

Lemma scan_S g j n : scan g j (S n) = scan_gt ious g j (scan g j n) n.
Proof. unfold Matcher.scan. by rewrite seq_S, fold_left_app. Qed.

(** Either nothing was picked, or the pick is a free ground truth below [n]
    whose IoU is the running best and reaches the start value. *)
Lemma scan_pick g j n :
  let '(m, v) := scan g j n in
  (m = -1 ∧ v = init) ∨
  (0 ≤ m < Z.of_nat n ∧ ¬ ta_read g (Z.to_nat m) > -1 ∧
   v = entry ious (Z.to_nat m) j ∧ (init <= v)%Q).
Proof.
  induction n as [|n IH]; [left; done |].
  rewrite scan_S. destruct (scan g j n) as [m v]. unfold scan_gt.
  case_bool_decide as Hfree.
  { destruct IH as [? | (? & ? & ? & ?)]; [by left | right; repeat split; auto; lia]. }
  destruct (Qltb (entry ious n j) v) eqn:Hlt.
  { destruct IH as [? | (? & ? & ? & ?)]; [by left | right; repeat split; auto; lia]. }
  right. rewrite Nat2Z.id. apply Qltb_false in Hlt.
  repeat split; try lia; try done.
  destruct IH as [[_ ->] | (_ & _ & _ & Hv)]; [done | by eapply Qle_trans].
Qed.

(** Every free ground truth below [n] has an IoU at most the running best,
    and a smaller one if it comes after the pick. *)
Lemma scan_best g j n :
  let '(m, v) := scan g j n in
  ∀ i, (i < n)%nat → ¬ ta_read g i > -1 →
    (entry ious i j <= v)%Q ∧ (m < Z.of_nat i → (entry ious i j < v)%Q).
Proof.
  induction n as [|n IH]; [destruct (scan g j 0); intros; lia |].
  rewrite scan_S. destruct (scan g j n) as [m v]. unfold scan_gt.
  case_bool_decide as Hfree.
  { intros i Hi Hi'. destruct (decide (i = n)) as [-> | ?]; [done |].
    apply IH; [lia | done]. }
  destruct (Qltb (entry ious n j) v) eqn:Hlt.
  - apply Qltb_true in Hlt.
    intros i Hi Hi'. destruct (decide (i = n)) as [-> | ?].
    + split; [by apply Qlt_le_weak | done].
    + apply IH; [lia | done].
  - apply Qltb_false in Hlt.
    intros i Hi Hi'. destruct (decide (i = n)) as [-> | ?].
    + split; [apply Qle_refl | lia].
    + destruct (IH i) as [Hle _]; [lia | done |].
      split; [by eapply Qle_trans | lia].
Qed.

(** *** The outer loop *)

#[local] Abbreviation loop := (match_loop ious threshold).

Lemma match_loop_S k : loop (S k) = match_detection ious threshold (loop k) k.
Proof. unfold match_loop. by rewrite seq_S, fold_left_app. Qed.

Lemma loop_inv_0 : loop_inv ious 0 (loop 0).
Proof.
  unfold match_loop. cbn [seq fold_left loop_inv].
  rewrite !fill_minus_one_eq, !length_replicate.
  repeat split; try done.
  - intros i v [-> _]%lookup_replicate_1. by left.
  - intros; lia.
  - intros j Hj. apply lookup_replicate_2. lia.
Qed.

Lemma loop_inv_step k st :
  (k < shape1 ious)%nat → loop_inv ious k st →
  loop_inv ious (S k) (match_detection ious threshold st k).
Proof.
  intros Hk. destruct st as [gt pm]. intros (Hgt & Hpm & Hb & Hc & Hd).
  unfold match_detection, best_gt.
  pose proof (scan_pick gt k (shape0 ious)) as Hpick.
  destruct (scan gt k (shape0 ious)) as [m v]. cbn [fst].
  case_bool_decide as Hm.
  - subst m. repeat split; rewrite ?length_ta_write; try done.
    + intros i w Hi. destruct (Hb i w Hi) as [-> | [Hw Hpmw]]; [by left |].
      right. split; [lia |]. rewrite lookup_ta_write_ne by lia. done.
    + intros j m Hj. destruct (decide (j = k)) as [-> | Hne].
      * rewrite lookup_ta_write_eq by lia. intros [= <-]. by left.
      * rewrite lookup_ta_write_ne by done. apply Hc. lia.
    + intros j Hj. rewrite lookup_ta_write_ne by lia. apply Hd. lia.
  - destruct Hpick as [[? _] | (Hrange & Hfree & _ & _)]; [done |].
    assert (gt !! Z.to_nat m = Some (-1)) as Hslot.
    { destruct (lookup_lt_is_Some_2 gt (Z.to_nat m)) as [w Hw]; [lia |].
      unfold ta_read in Hfree. rewrite Hw in Hfree. cbn in Hfree.
      destruct (Hb _ _ Hw) as [-> | [? _]]; [done | lia]. }
    repeat split; rewrite ?length_ta_write; try done.
    + intros i w. destruct (decide (i = Z.to_nat m)) as [-> | Hne].
      * rewrite lookup_ta_write_eq by lia. intros [= <-]. right.
        split; [lia |]. rewrite Nat2Z.id, lookup_ta_write_eq by lia.
        f_equal. lia.
      * rewrite lookup_ta_write_ne by done. intros Hi.
        destruct (Hb i w Hi) as [-> | [Hw Hpmw]]; [by left |].
        right. split; [lia |]. rewrite lookup_ta_write_ne by lia. done.
    + intros j m' Hj. destruct (decide (j = k)) as [-> | Hne].
      * rewrite lookup_ta_write_eq by lia. intros [= <-]. right.
        split; [lia |]. apply lookup_ta_write_eq. lia.
      * rewrite lookup_ta_write_ne by done. intros Hj'.
        destruct (Hc j m' ltac:(lia) Hj') as [-> | [Hm' Hgtm']]; [by left |].
        right. split; [done |]. rewrite lookup_ta_write_ne; [done |].
        intros Heq. rewrite <- Heq, Hslot in Hgtm'. injection Hgtm'. lia.
    + intros j Hj. rewrite lookup_ta_write_ne by lia. apply Hd. lia.
Qed.

Lemma loop_inv_loop k : (k ≤ shape1 ious)%nat → loop_inv ious k (loop k).
Proof.
  induction k as [|k IH]; intros Hk; [apply loop_inv_0 |].
  rewrite match_loop_S. apply loop_inv_step; [lia | apply IH; lia].
Qed.

(** A detection's entry is written once, when the detection is processed. *)
Lemma match_detection_other st k j :
  j ≠ k → snd (match_detection ious threshold st k) !! j = snd st !! j.
Proof.
  intros Hne. destruct st as [gt pm]. unfold match_detection.
  case_bool_decide; cbn [snd]; by rewrite lookup_ta_write_ne.
Qed.

Lemma loop_prefix_stable k n j :
  (j < k)%nat → snd (loop (k + n)) !! j = snd (loop k) !! j.
Proof.
  intros Hj. induction n as [|n IH]; [by rewrite Nat.add_0_r |].
  rewrite Nat.add_succ_r, match_loop_S, match_detection_other by lia. done.
Qed.

Lemma match_boxes_prefix k j :
  (j < k ≤ shape1 ious)%nat →
  match_boxes ious threshold !! j = snd (loop k) !! j.
Proof.
  intros Hj. unfold match_boxes.
  replace (shape1 ious) with (k + (shape1 ious - k))%nat by lia.
  apply loop_prefix_stable. lia.
Qed.

Lemma length_match_boxes : length (match_boxes ious threshold) = shape1 ious.
Proof.
  unfold match_boxes. pose proof (loop_inv_loop (shape1 ious)) as H.
  destruct (loop (shape1 ious)) as [gt pm]. apply H. lia.
Qed.

(** The entry of detection [j] is the pick of the inner loop run on the
    ground-truth array left by the detections before [j]. *)
Lemma match_boxes_lookup j :
  (j < shape1 ious)%nat →
  match_boxes ious threshold !! j
  = Some (fst (best_gt ious threshold (fst (loop j)) j)).
Proof.
  intros Hj. rewrite (match_boxes_prefix (S j)) by lia.
  rewrite match_loop_S.
  pose proof (loop_inv_loop j) as Hinv.
  destruct (loop j) as [gt pm]. destruct Hinv as (_ & Hpm & _); [lia |].
  unfold match_detection. case_bool_decide; cbn [fst snd];
    apply lookup_ta_write_eq; lia.
Qed.

(** The ground-truth array seen by detection [j] marks exactly the ground
    truths matched by an earlier detection. *)
Lemma loop_free_iff j i :
  (j ≤ shape1 ious)%nat → (i < shape0 ious)%nat →
  ¬ ta_read (fst (loop j)) i > -1
  ↔ unmatched_before (match_boxes ious threshold) j i.
Proof.
  intros Hj Hi. unfold unmatched_before.
  pose proof (loop_inv_loop j Hj) as Hinv.
  pose proof (fun j' => match_boxes_prefix j j') as Hpre.
  destruct (loop j) as [gt pm]. destruct Hinv as (Hgt & Hpm & Hb & Hc & _).
  cbn [fst snd] in *. unfold ta_read.
  destruct (lookup_lt_is_Some_2 gt i) as [w Hw]; [lia |]. rewrite Hw. cbn.
  split.
  - intros Hfree j' Hj'. rewrite Hpre by lia. intros Hm.
    destruct (Hc j' _ Hj' Hm) as [? | [_ Hgtm]]; [lia |].
    rewrite Nat2Z.id, Hw in Hgtm. injection Hgtm. lia.
  - intros Hnone Hgt'. destruct (Hb i w Hw) as [-> | [Hrange Hm]]; [lia |].
    apply (Hnone (Z.to_nat w)); [lia |]. rewrite Hpre by lia. done.
Qed.

End MatcherProofs.

(** A matched entry names a ground truth that was free, and its IoU with the
    detection is the best among the free ones and at least the start value;
    free ground truths after it have a smaller IoU. *)
Lemma match_boxes_pick ious threshold j m :
  match_boxes ious threshold !! j = Some (Z.of_nat m) →
  (j < shape1 ious)%nat ∧ (m < shape0 ious)%nat ∧
  unmatched_before (match_boxes ious threshold) j m ∧
  (start_iou (t_dtype ious) threshold <= entry ious m j)%Q ∧
  ∀ i, (i < shape0 ious)%nat →
    unmatched_before (match_boxes ious threshold) j i →
    (entry ious i j <= entry ious m j)%Q ∧
    ((m < i)%nat → (entry ious i j < entry ious m j)%Q).
Proof.
  intros Hm.
  assert (j < shape1 ious)%nat as Hj.
  { rewrite <- (length_match_boxes ious threshold). by eapply lookup_lt_Some. }
  split; [done |].
  rewrite match_boxes_lookup in Hm by done. injection Hm as Hm.
  unfold best_gt in Hm.
  pose proof (scan_pick ious threshold (fst (match_loop ious threshold j)) j
                (shape0 ious)) as Hpick.
  pose proof (scan_best ious threshold (fst (match_loop ious threshold j)) j
                (shape0 ious)) as Hbest.
  destruct (scan _ _ _ _ _) as [m' v]. cbn [fst] in Hm. subst m'.
  destruct Hpick as [[? _] | (Hrange & Hfree & -> & Hinit)]; [lia |].
  rewrite Nat2Z.id in *.
  split; [lia |]. split; [apply loop_free_iff; [lia | lia | done] |].
  split; [done |].
  intros i Hi Hfree'. apply loop_free_iff in Hfree'; [| lia | done].
  destruct (Hbest i Hi Hfree') as [Hle Hlt]. split; [done |].
  intros Hmi. apply Hlt. lia.
Qed.

(** If some free ground truth reaches the start value, the detection is
    matched. *)
Lemma match_boxes_some ious threshold j i :
  (j < shape1 ious)%nat → (i < shape0 ious)%nat →
  unmatched_before (match_boxes ious threshold) j i →
  (start_iou (t_dtype ious) threshold <= entry ious i j)%Q →
  ∃ m, match_boxes ious threshold !! j = Some (Z.of_nat m).
Proof.
  intros Hj Hi Hfree Hinit.
  rewrite match_boxes_lookup by done. unfold best_gt.
  apply loop_free_iff in Hfree; [| lia | done].
  pose proof (scan_pick ious threshold (fst (match_loop ious threshold j)) j
                (shape0 ious)) as Hpick.
  pose proof (scan_best ious threshold (fst (match_loop ious threshold j)) j
                (shape0 ious)) as Hbest.
  destruct (scan _ _ _ _ _) as [m v]. cbn [fst].
  destruct Hpick as [[-> ->] | (Hrange & _)].
  - destruct (Hbest i Hi Hfree) as [_ Hlt].
    exfalso. apply (Qlt_not_le _ _ (Hlt ltac:(lia))). done.
  - exists (Z.to_nat m). f_equal. lia.
Qed.

(** Distinct matched detections have distinct ground truths. *)
Lemma match_boxes_injective ious threshold j1 j2 m :
  m ≠ -1 →
  match_boxes ious threshold !! j1 = Some m →
  match_boxes ious threshold !! j2 = Some m →
  j1 = j2.
Proof.
  intros Hm H1 H2.
  pose proof (length_match_boxes ious threshold) as Hlen.
  pose proof (lookup_lt_Some _ _ _ H1). pose proof (lookup_lt_Some _ _ _ H2).
  pose proof (loop_inv_loop ious threshold (shape1 ious) ltac:(lia)) as Hinv.
  unfold match_boxes in *.
  destruct (match_loop ious threshold (shape1 ious)) as [gt pm].
  destruct Hinv as (_ & _ & _ & Hc & _). cbn [snd] in *.
  destruct (Hc j1 m ltac:(lia) H1) as [? | [_ Hg1]]; [done |].
  destruct (Hc j2 m ltac:(lia) H2) as [? | [_ Hg2]]; [done |].
  rewrite Hg1 in Hg2. injection Hg2. lia.
Qed.

Lemma match_boxes_range ious threshold j m :
  match_boxes ious threshold !! j = Some m →
  m = -1 ∨ 0 ≤ m < Z.of_nat (shape0 ious).
Proof.
  intros H1.
  pose proof (length_match_boxes ious threshold) as Hlen.
  pose proof (lookup_lt_Some _ _ _ H1).
  pose proof (loop_inv_loop ious threshold (shape1 ious) ltac:(lia)) as Hinv.
  unfold match_boxes in *.
  destruct (match_loop ious threshold (shape1 ious)) as [gt pm].
  destruct Hinv as (_ & _ & _ & Hc & _). cbn [snd] in *.
  destruct (Hc j m ltac:(lia) H1) as [? | [? _]]; auto.
Qed.

Lemma NoDup_filter_lookup {A} (P : A → Prop) `{∀ x, Decision (P x)} (l : list A) :
  (∀ i j x, P x → l !! i = Some x → l !! j = Some x → i = j) →
  NoDup (filter P l).
Proof.
  induction l as [|a l IH]; intros Hinj; [constructor |].
  assert (NoDup (filter P l)) as Hnd.
  { apply IH. intros i j x HP Hi Hj.
    by injection (Hinj (S i) (S j) x HP Hi Hj). }
  rewrite filter_cons. case_decide as Ha; [| done].
  constructor; [| done].
  intros [_ [i Hi]%list_elem_of_lookup]%list_elem_of_filter.
  discriminate (Hinj 0%nat (S i) a Ha eq_refl Hi).
Qed.

(** ** The claims on the matcher *)

(** C2. The match result has at most [min(numGroundTruth, numPredicted)]
    entries different from [-1], and no ground-truth index occurs twice among
    them: two detections with the same matched ground truth are the same
    detection. *)
Theorem match_boxes_cardinality (ious : Tensor2) (threshold : Q) :
  (length (matched (match_boxes ious threshold))
   ≤ Nat.min (shape0 ious) (shape1 ious))%nat ∧
  NoDup (matched (match_boxes ious threshold)) ∧
  ∀ j1 j2 m, m ≠ -1 →
    match_boxes ious threshold !! j1 = Some m →
    match_boxes ious threshold !! j2 = Some m → j1 = j2.
Proof.
  assert (NoDup (matched (match_boxes ious threshold))) as Hnd.
  { apply NoDup_filter_lookup. intros i j x. apply match_boxes_injective. }
  split; [| split; [done | apply match_boxes_injective]].
  apply Nat.min_glb.
  - assert (matched (match_boxes ious threshold)
            ⊆+ (Z.of_nat <$> seq 0 (shape0 ious))) as Hsub.
    { apply NoDup_submseteq; [done |].
      intros m [Hm [j Hj]%list_elem_of_lookup]%list_elem_of_filter.
      destruct (match_boxes_range _ _ _ _ Hj) as [? | Hr]; [done |].
      apply list_elem_of_fmap. exists (Z.to_nat m).
      split; [lia |]. apply elem_of_seq. lia. }
    apply submseteq_length in Hsub.
    by rewrite length_fmap, length_seq in Hsub.
  - rewrite <- (length_match_boxes ious threshold). apply length_filter.
Qed.

(** C1, as stated, fails: two free ground truths tie at 0.9 with the only
    detection, and the match recorded is the one with the higher index. *)
Lemma match_boxes_tie_lowest_counterexample :
  let ious := tf_constant float32 1 [[9 # 10]; [9 # 10]]%Q in
  let threshold := (1 # 2)%Q in
  (entry ious 0 0 == entry ious 1 0)%Q ∧
  (start_iou (t_dtype ious) threshold <= entry ious 0 0)%Q ∧
  unmatched_before (match_boxes ious threshold) 0 0 ∧
  unmatched_before (match_boxes ious threshold) 0 1 ∧
  match_boxes ious threshold = [1] ∧
  match_boxes ious threshold !! 0%nat ≠ Some 0.
Proof.
  cbv zeta. split; [reflexivity |]. split; [by vm_compute |].
  split; [intros j' Hj'; lia |]. split; [intros j' Hj'; lia |].
  split; [by vm_compute | by vm_compute].
Qed.

(** C1, amended.  When still-unmatched ground truths have identical IoU with
    the detection being processed and that IoU is the best available and at
    least the start value, the tie goes to the candidate scanned last: the
    tied ground truth with the highest index is recorded as the match. *)
Theorem match_boxes_tie_highest_index (ious : Tensor2) (threshold : Q)
    (j i : nat) :
  (j < shape1 ious)%nat → (i < shape0 ious)%nat →
  unmatched_before (match_boxes ious threshold) j i →
  (start_iou (t_dtype ious) threshold <= entry ious i j)%Q →
  (∀ i', (i' < shape0 ious)%nat →
     unmatched_before (match_boxes ious threshold) j i' →
     (entry ious i' j <= entry ious i j)%Q) →
  (∀ i', (i < i' < shape0 ious)%nat →
     unmatched_before (match_boxes ious threshold) j i' →
     ¬ (entry ious i' j == entry ious i j)%Q) →
  match_boxes ious threshold !! j = Some (Z.of_nat i).
Proof.
  intros Hj Hi Hfree Hinit Hbest Hlast.
  destruct (match_boxes_some ious threshold j i Hj Hi Hfree Hinit) as [m Hm].
  rewrite Hm. do 2 f_equal.
  destruct (match_boxes_pick _ _ _ _ Hm) as (_ & Hmlt & Hmfree & _ & Hmbest).
  destruct (Hmbest i Hi Hfree) as [Hle Hlt].
  destruct (lt_eq_lt_dec m i) as [[Hlt' | ->] | Hgt]; [| done |].
  - exfalso. apply (Qlt_not_le _ _ (Hlt Hlt')). by apply Hbest.
  - exfalso. apply (Hlast m); [lia | done |].
    apply Qle_antisym; [by apply Hbest | done].
Qed.

Lemma match_boxes_tie_highest_index_witness :
  match_boxes (tf_constant float32 1 [[9 # 10]; [9 # 10]]%Q) (1 # 2) !! 0%nat
  = Some (Z.of_nat 1).
Proof.
  apply (match_boxes_tie_highest_index
           (tf_constant float32 1 [[9 # 10]; [9 # 10]]%Q) (1 # 2) 0 1).
  - vm_compute. lia.
  - vm_compute. lia.
  - intros j' Hj'. lia.
  - by vm_compute.
  - intros i' Hi' _. cbn in Hi'.
    destruct i' as [|[|i']]; [by vm_compute | by vm_compute | lia].
  - intros i' Hi' _. cbn in Hi'. lia.
Defined.

(** C3, as stated, fails for a threshold above [1 - 1e-10]: the scan starts
    at most at [1 - 1e-10] (in float32: at 1) whatever the threshold, so with
    threshold 2 a pair of IoU 1 is matched although its IoU is below the
    threshold. *)
Lemma match_boxes_threshold_counterexample :
  let ious := tf_constant float32 1 [[1]]%Q in
  let threshold := 2%Q in
  match_boxes ious threshold !! 0%nat = Some (Z.of_nat 0) ∧
  ¬ (threshold <= entry ious 0 0)%Q.
Proof. split; [by vm_compute |]. by vm_compute. Qed.

(** In double precision the same happens with threshold 1 and an IoU equal
    to the double [1 - 1e-10]. *)
Example clamp_at_threshold_one :
  let ious := mkTensor2 float64 1 [[one_minus_eps]] in
  match_boxes ious 1 !! 0%nat = Some (Z.of_nat 0) ∧
  ¬ (1 <= entry ious 0 0)%Q.
Proof. split; [by vm_compute |]. by vm_compute. Qed.

(** C3, amended.  Every matched pair [(i, j)] has an IoU of at least
    [min(threshold, 1 - 1e-10)], the two scalars being converted to the
    dtype of the IoU tensor (in float32 the double [1 - 1e-10] becomes 1);
    so its IoU is at least the converted threshold whenever that is at most
    the converted [1 - 1e-10], and at least the threshold itself when the
    dtype represents the threshold exactly. *)
Theorem match_boxes_threshold (ious : Tensor2) (threshold : Q) (i j : nat) :
  match_boxes ious threshold !! j = Some (Z.of_nat i) →
  let dt := t_dtype ious in
  (Qmin (cast dt threshold) (cast dt one_minus_eps) <= entry ious i j)%Q ∧
  ((cast dt threshold <= cast dt one_minus_eps)%Q →
   (cast dt threshold <= entry ious i j)%Q) ∧
  ((cast dt threshold == threshold)%Q →
   (threshold <= cast dt one_minus_eps)%Q →
   (threshold <= entry ious i j)%Q).
Proof.
  intros Hm dt.
  destruct (match_boxes_pick _ _ _ _ Hm) as (_ & _ & _ & Hinit & _).
  unfold start_iou in Hinit. fold dt in Hinit.
  split; [done |].
  assert ((cast dt threshold <= cast dt one_minus_eps)%Q →
          (cast dt threshold <= entry ious i j)%Q) as Hclamp.
  { intros Hle. eapply Qle_trans; [| exact Hinit].
    rewrite (Q.min_l _ _ Hle). apply Qle_refl. }
  split; [done |]. intros Hrep Hle. rewrite <- Hrep.
  apply Hclamp. by rewrite Hrep.
Qed.

Lemma match_boxes_threshold_witness :
  let ious :=
    tf_constant float32 3
      [[9 # 10; 1 # 10; 0]; [2 # 10; 8 # 10; 95 # 100]]%Q in
  let dt := t_dtype ious in
  (Qmin (cast dt (1 # 2)) (cast dt one_minus_eps) <= entry ious 1 1)%Q ∧
  ((cast dt (1 # 2) <= cast dt one_minus_eps)%Q →
   (cast dt (1 # 2) <= entry ious 1 1)%Q) ∧
  ((cast dt (1 # 2) == 1 # 2)%Q →
   ((1 # 2) <= cast dt one_minus_eps)%Q →
   ((1 # 2) <= entry ious 1 1)%Q).
Proof.
  apply (match_boxes_threshold
           (tf_constant float32 3
              [[9 # 10; 1 # 10; 0]; [2 # 10; 8 # 10; 95 # 100]]%Q)
           (1 # 2) 1 1).
  vm_compute. reflexivity.
Defined.

(** *** The scenarios of the specification *)

Example match_boxes_scenario :
  match_boxes
    (tf_constant float32 3 [[9 # 10; 1 # 10; 0]; [2 # 10; 8 # 10; 95 # 100]]%Q) (1 # 2)
  = [0; 1; -1].
Proof. by vm_compute. Qed.

(** Without ground truths every detection is unmatched. *)
Lemma match_boxes_no_ground_truth (ious : Tensor2) (threshold : Q) :
  shape0 ious = 0%nat →
  match_boxes ious threshold = replicate (shape1 ious) (-1).
Proof.
  intros Hno. apply list_eq_same_length with (shape1 ious);
    [apply length_replicate | apply length_match_boxes |].
  intros j m m' Hj Hm Hm'.
  apply lookup_replicate_1 in Hm' as [-> _].
  destruct (match_boxes_range _ _ _ _ Hm); [done | lia].
Qed.

Example match_boxes_no_ground_truth_scenario :
  match_boxes (tf_constant float32 3 []) (1 # 2) = [-1; -1; -1].
Proof. by apply (match_boxes_no_ground_truth (tf_constant float32 3 [])). Qed.

(** ** The filters on box tensors *)

Lemma where_from_elem i0 mask i :
  i ∈ where_from i0 mask ↔ (i0 ≤ i)%nat ∧ mask !! (i - i0)%nat = Some true.
Proof.
  revert i0. induction mask as [|b mask IH]; intros i0; cbn [where_from].
  - rewrite elem_of_nil. split; [done | by intros [_ ?]].
  - assert (i ∈ where_from (S i0) mask
            ↔ (i0 < i)%nat ∧ (b :: mask) !! (i - i0)%nat = Some true) as IH'.
    { rewrite IH. split.
      - intros [Hle Hget]. split; [lia |].
        by replace (i - i0)%nat with (S (i - S i0)) by lia.
      - intros [Hlt Hget]. split; [lia |].
        by replace (i - i0)%nat with (S (i - S i0)) in Hget by lia. }
    destruct b.
    + rewrite elem_of_cons, IH'. split.
      * intros [-> | [Hlt Hget]]; [| split; [lia | done]].
        by rewrite Nat.sub_diag.
      * intros [Hle Hget]. destruct (decide (i = i0)) as [-> | ?]; [by left |].
        right. split; [lia | done].
    + rewrite IH'. split.
      * intros [Hlt Hget]. split; [lia | done].
      * intros [Hle Hget]. destruct (decide (i = i0)) as [-> | ?].
        -- by rewrite Nat.sub_diag in Hget.
        -- split; [lia | done].
Qed.

Lemma tf_where_elem mask i : i ∈ tf_where mask ↔ mask !! i = Some true.
Proof.
  unfold tf_where. rewrite where_from_elem, Nat.sub_0_r.
  split; [by intros [_ ?] | split; [lia | done]].
Qed.

Lemma where_from_sorted i0 mask : StronglySorted lt (where_from i0 mask).
Proof.
  revert i0. induction mask as [|b mask IH]; intros i0; cbn [where_from].
  - constructor.
  - destruct b; [| apply IH]. constructor; [apply IH |].
    apply Forall_forall. intros i [Hi _]%where_from_elem. lia.
Qed.

(** Gathering the rows at the positions where a row-wise test holds is
    filtering the rows by the test. *)
Lemma gather_where_from (p : list Q → bool) (pre rows : list (list Q)) :
  mapM (fun i => (pre ++ rows) !! i) (where_from (length pre) (map p rows))
  = Some (filter (fun row => p row) rows).
Proof.
  revert pre. induction rows as [|row rows IH]; intros pre; [done |].
  specialize (IH (pre ++ [row])).
  rewrite length_app, Nat.add_1_r, <- app_assoc in IH. cbn [app] in IH.
  cbn [map where_from]. rewrite filter_cons. case_decide as Hp.
  - apply Is_true_true in Hp. rewrite Hp. cbn [mapM].
    rewrite IH, list_lookup_middle by done. done.
  - apply Is_true_false in Hp. rewrite Hp. exact IH.
Qed.

Lemma gather_rows_where (boxes : Tensor2) (p : list Q → bool) :
  gather_rows boxes (tf_where (map p (t_rows boxes)))
  = Ok (mkTensor2 (t_dtype boxes) (t_cols boxes) (filter (fun row => p row) (t_rows boxes))).
Proof.
  unfold gather_rows, tf_where.
  pose proof (gather_where_from p [] (t_rows boxes)) as H.
  cbn [app length] in H. by rewrite H.
Qed.

Lemma column_Ok boxes k :
  (k < t_cols boxes)%nat →
  column boxes k = Ok (map (fun row => default 0%Q (row !! k)) (t_rows boxes)).
Proof. intros Hk. unfold column. by rewrite bool_decide_true. Qed.

Lemma zip_with_map_map {A B C D} (f : B → C → D) (g : A → B) (h : A → C) l :
  zip_with f (map g l) (map h l) = map (fun x => f (g x) (h x)) l.
Proof. induction l as [|x l IH]; [done |]. cbn. by rewrite IH. Qed.

Lemma bounding_box_area_Ok boxes :
  (3 < t_cols boxes)%nat →
  bounding_box_area boxes = Ok (map (box_area (t_dtype boxes)) (t_rows boxes)).
Proof.
  intros Hk. unfold bounding_box_area, XYXY.RIGHT, XYXY.LEFT, XYXY.BOTTOM, XYXY.TOP.
  rewrite !column_Ok by lia. cbn [mbind result_bind].
  by rewrite !zip_with_map_map.
Qed.

Lemma area_test_spec dt a b row :
  Qgeb (box_area dt row) (cast dt a) && Qltb (box_area dt row) (cast dt b)
  ↔ in_area_range dt a b row.
Proof.
  unfold in_area_range.
  rewrite andb_True, !Is_true_true, Qgeb_true, Qltb_true. done.
Qed.

Lemma area_mask_map dt boxes a b :
  area_mask dt (map (box_area dt) (t_rows boxes)) a b
  = map (fun row => Qgeb (box_area dt row) (cast dt a)
                    && Qltb (box_area dt row) (cast dt b))
        (t_rows boxes).
Proof. unfold area_mask. by rewrite map_map. Qed.

Lemma filter_boxes_by_area_range_Ok boxes a b :
  (3 < t_cols boxes)%nat →
  filter_boxes_by_area_range boxes a b
  = Ok (mkTensor2 (t_dtype boxes) (t_cols boxes)
          (filter (in_area_range (t_dtype boxes) a b) (t_rows boxes))).
Proof.
  intros Hk. unfold filter_boxes_by_area_range.
  rewrite bounding_box_area_Ok by done. cbn [mbind result_bind].
  rewrite area_mask_map, gather_rows_where. do 2 f_equal.
  apply list_filter_iff. intros row. apply area_test_spec.
Qed.

Lemma area_range_inds_Ok boxes a b :
  (3 < t_cols boxes)%nat →
  area_range_inds boxes a b
  = Ok (tf_where (area_mask (t_dtype boxes)
                    (map (box_area (t_dtype boxes)) (t_rows boxes)) a b)).
Proof.
  intros Hk. unfold area_range_inds.
  by rewrite bounding_box_area_Ok.
Qed.

Lemma area_range_inds_elem dt boxes a b i :
  i ∈ tf_where (area_mask dt (map (box_area dt) (t_rows boxes)) a b)
  ↔ ∃ row, t_rows boxes !! i = Some row ∧ in_area_range dt a b row.
Proof.
  rewrite tf_where_elem, area_mask_map, list_lookup_fmap.
  destruct (t_rows boxes !! i) as [row|]; cbn -[in_area_range box_area cast].
  - split.
    + intros [= H]. exists row. split; [done |].
      apply area_test_spec. by rewrite H.
    + intros (? & [= <-] & H). f_equal.
      by apply Is_true_true, area_test_spec.
  - split; [done | by intros (? & ? & _)].
Qed.

(** C7, as stated, fails: the areas are float products.  In float32 the box
    [[0, 0, 4099, 4097]], whose area 16793603 lies in [[0, 16793604)], gets
    the area 16793604 and is not kept for that bucket. *)
Lemma area_range_rounding_counterexample :
  let boxes := tf_constant float32 4 [[0; 0; 4099; 4097]]%Q in
  t_rows boxes = [[0; 0; 4099; 4097]]%Q ∧
  (exact_area [0; 0; 4099; 4097] == 16793603)%Q ∧
  (0 <= exact_area [0; 0; 4099; 4097])%Q ∧
  (exact_area [0; 0; 4099; 4097] < 16793604)%Q ∧
  bounding_box_area boxes = Ok [16793604]%Q ∧
  filter_boxes_by_area_range boxes 0 16793604
  = Ok (mkTensor2 float32 4 []).
Proof.
  cbv zeta. repeat split; by vm_compute.
Qed.

(** The bounds are converted to the dtype of the areas before they are
    compared: in float32 the bound 16777217 becomes 16777216, so a box of
    area 16777216 is kept although its area is below the lower bound. *)
Example area_bound_conversion_keeps_row :
  let boxes := tf_constant float32 4 [[0; 0; 4096; 4096]]%Q in
  (exact_area [0; 0; 4096; 4096] == 16777216)%Q ∧
  bounding_box_area boxes = Ok [16777216]%Q ∧
  ¬ (16777217 <= 16777216)%Q ∧
  filter_boxes_by_area_range boxes 16777217 20000000 = Ok boxes.
Proof.
  cbv zeta. split; [by vm_compute |]. split; [by vm_compute |].
  split; [by vm_compute | by vm_compute].
Qed.

(** C7, amended.  On boxes whose areas do not overflow,
    [filter_boxes_by_area_range] keeps exactly the rows whose area, as
    [bounding_box_area] computes it in the floats of the tensor, lies in
    [[min_area, max_area)] with the two bounds converted to the dtype of the
    tensor; for [a < b < c] the index sets selected for [[a, b)] and
    [[b, c)] are disjoint and their union is the index set selected for
    [[a, c)]. *)
Theorem area_range_partition (boxes : Tensor2) (a b c : Q) :
  (3 < t_cols boxes)%nat → (a < b)%Q → (b < c)%Q →
  Forall (area_finite (t_dtype boxes)) (t_rows boxes) →
  let dt := t_dtype boxes in
  ∃ areas iab ibc iac,
    bounding_box_area boxes = Ok areas ∧
    area_range_inds boxes a b = Ok iab ∧
    area_range_inds boxes b c = Ok ibc ∧
    area_range_inds boxes a c = Ok iac ∧
    filter_boxes_by_area_range boxes a b = gather_rows boxes iab ∧
    filter_boxes_by_area_range boxes a b
    = Ok (mkTensor2 dt (t_cols boxes)
            (filter (in_area_range dt a b) (t_rows boxes))) ∧
    (∀ i, i ∈ iab
          ↔ ∃ x, areas !! i = Some x ∧
                 (cast dt a <= x)%Q ∧ (x < cast dt b)%Q) ∧
    (∀ i, ¬ (i ∈ iab ∧ i ∈ ibc)) ∧
    (∀ i, i ∈ iac ↔ i ∈ iab ∨ i ∈ ibc).
Proof.
  intros Hk Hab Hbc _ dt. eexists _, _, _, _.
  split; [by apply bounding_box_area_Ok |].
  split; [by apply area_range_inds_Ok |].
  split; [by apply area_range_inds_Ok |].
  split; [by apply area_range_inds_Ok |].
  split.
  { unfold filter_boxes_by_area_range. by rewrite bounding_box_area_Ok. }
  split; [by apply filter_boxes_by_area_range_Ok |].
  pose proof (cast_mono dt a b (Qlt_le_weak _ _ Hab)) as Hab'.
  pose proof (cast_mono dt b c (Qlt_le_weak _ _ Hbc)) as Hbc'.
  fold dt. split; [| split].
  - intros i. rewrite area_range_inds_elem, list_lookup_fmap. split.
    + intros (row & -> & Hin). by exists (box_area dt row).
    + intros (x & Hx & Hin). destruct (t_rows boxes !! i) as [row|]; [| done].
      injection Hx as <-. by exists row.
  - intros i. rewrite !area_range_inds_elem.
    intros [(row & Hrow & _ & Hlt) (row' & Hrow' & Hle & _)].
    rewrite Hrow in Hrow'. injection Hrow' as <-.
    exact (Qlt_not_le _ _ Hlt Hle).
  - intros i. rewrite !area_range_inds_elem. split.
    + intros (row & Hrow & Hle & Hlt).
      destruct (Qlt_le_dec (box_area dt row) (cast dt b)) as [Hb | Hb].
      * left. by exists row.
      * right. by exists row.
    + intros [(row & Hrow & Hle & Hlt) | (row & Hrow & Hle & Hlt)];
        exists row; (split; [done |]); split; try done.
      * by eapply Qlt_le_trans.
      * by eapply Qle_trans.
Qed.

Lemma area_range_partition_witness :
  let boxes :=
    tf_constant float32 4 [[0; 0; 2; 3]; [0; 0; 1; 1]; [1; 1; 4; 4]]%Q in
  let dt := t_dtype boxes in
  ∃ areas iab ibc iac,
    bounding_box_area boxes = Ok areas ∧
    area_range_inds boxes 0 5 = Ok iab ∧
    area_range_inds boxes 5 10 = Ok ibc ∧
    area_range_inds boxes 0 10 = Ok iac ∧
    filter_boxes_by_area_range boxes 0 5 = gather_rows boxes iab ∧
    filter_boxes_by_area_range boxes 0 5
    = Ok (mkTensor2 dt (t_cols boxes)
            (filter (in_area_range dt 0 5) (t_rows boxes))) ∧
    (∀ i, i ∈ iab
          ↔ ∃ x, areas !! i = Some x ∧
                 (cast dt 0 <= x)%Q ∧ (x < cast dt 5)%Q) ∧
    (∀ i, ¬ (i ∈ iab ∧ i ∈ ibc)) ∧
    (∀ i, i ∈ iac ↔ i ∈ iab ∨ i ∈ ibc).
Proof.
  apply (area_range_partition
           (tf_constant float32 4
              [[0; 0; 2; 3]; [0; 0; 1; 1]; [1; 1; 4; 4]]%Q) 0 5 10).
  - cbn. lia.
  - reflexivity.
  - reflexivity.
  - repeat (constructor || split); by vm_compute.
Defined.

(** C10.  The index list selected by [filter_boxes_by_area_range] is strictly
    increasing and the output holds the rows at these indices, in this
    order: the kept rows keep their relative order. *)
Theorem filter_boxes_by_area_range_order (boxes : Tensor2) (min_area max_area : Q) :
  (3 < t_cols boxes)%nat →
  ∃ inds out,
    area_range_inds boxes min_area max_area = Ok inds ∧
    filter_boxes_by_area_range boxes min_area max_area = Ok out ∧
    StronglySorted lt inds ∧
    Forall2 (fun i row => t_rows boxes !! i = Some row) inds (t_rows out) ∧
    sublist (t_rows out) (t_rows boxes).
Proof.
  intros Hk. eexists _, _.
  split; [by apply area_range_inds_Ok |].
  split; [by apply filter_boxes_by_area_range_Ok |].
  split; [apply where_from_sorted |]. cbn [t_rows].
  split; [| apply sublist_filter].
  pose proof (filter_boxes_by_area_range_Ok boxes min_area max_area Hk) as Hout.
  unfold filter_boxes_by_area_range in Hout.
  rewrite bounding_box_area_Ok in Hout by done. cbn [mbind result_bind] in Hout.
  unfold gather_rows in Hout.
  destruct (mapM _ _) as [rows|] eqn:Hrows; [| done].
  injection Hout as <-. by apply mapM_Some in Hrows.
Qed.

Lemma filter_boxes_by_area_range_order_witness :
  let boxes := tf_constant float32 4 [[0; 0; 2; 3]; [0; 0; 1; 1]; [1; 1; 4; 4]]%Q in
  ∃ inds out,
    area_range_inds boxes 5 10 = Ok inds ∧
    filter_boxes_by_area_range boxes 5 10 = Ok out ∧
    StronglySorted lt inds ∧
    Forall2 (fun i row => t_rows boxes !! i = Some row) inds (t_rows out) ∧
    sublist (t_rows out) (t_rows boxes).
Proof.
  apply (filter_boxes_by_area_range_order
           (tf_constant float32 4 [[0; 0; 2; 3]; [0; 0; 1; 1]; [1; 1; 4; 4]]%Q) 5 10).
  cbn. lia.
Defined.

Lemma eq_mask_map dt boxes axis value :
  eq_mask dt (map (fun row => default 0%Q (row !! axis)) (t_rows boxes)) value
  = map (fun row => Qeq_bool (class_of axis row) (cast dt value))
        (t_rows boxes).
Proof. unfold eq_mask. by rewrite map_map. Qed.

Lemma filter_boxes_Ok boxes value axis :
  (axis < t_cols boxes)%nat →
  filter_boxes boxes value axis
  = Ok (mkTensor2 (t_dtype boxes) (t_cols boxes)
          (filter (fun row =>
                     (class_of axis row == cast (t_dtype boxes) value)%Q)
                  (t_rows boxes))).
Proof.
  intros Hk. unfold filter_boxes. rewrite column_Ok by done.
  cbn [mbind result_bind]. rewrite eq_mask_map, gather_rows_where.
  do 2 f_equal. apply list_filter_iff. intros row.
  rewrite Is_true_true. apply Qeq_bool_iff.
Qed.

(** C8, as stated, fails: the target is converted to the dtype of the tensor
    before it is compared.  In float32 the target 16777217 becomes 16777216,
    so a row whose class is 16777216 is kept although its class is not the
    target. *)
Lemma filter_boxes_target_counterexample :
  let boxes := tf_constant float32 6 [[0; 0; 1; 1; 16777216; 1 # 2]]%Q in
  t_rows boxes = [[0; 0; 1; 1; 16777216; 1 # 2]]%Q ∧
  ¬ (class_of default_axis [0; 0; 1; 1; 16777216; 1 # 2] == 16777217)%Q ∧
  filter_boxes boxes 16777217 default_axis = Ok boxes.
Proof.
  cbv zeta. split; [by vm_compute |]. split; by vm_compute.
Qed.

(** C8, amended.  [filter_boxes] keeps exactly the rows whose class label
    equals the target converted to the dtype of the tensor, in their order
    (possibly none); for a target the dtype represents exactly these are the
    rows whose class equals the target; when the class column holds
    [[1, -1, 2, 1]] and the target is 1, the rows kept are those at indices 0
    and 3, in that order. *)
Theorem filter_boxes_keeps_class (boxes : Tensor2) (value : Q) (axis : nat) :
  (axis < t_cols boxes)%nat →
  let dt := t_dtype boxes in
  filter_boxes boxes value axis
  = Ok (mkTensor2 dt (t_cols boxes)
          (filter (fun row => (class_of axis row == cast dt value)%Q)
                  (t_rows boxes))) ∧
  ((cast dt value == value)%Q →
   filter_boxes boxes value axis
   = Ok (mkTensor2 dt (t_cols boxes)
           (filter (fun row => (class_of axis row == value)%Q)
                   (t_rows boxes)))) ∧
  (column boxes axis = Ok [1; -1; 2; 1]%Q →
   filter_boxes_inds boxes 1 axis = Ok [0; 3]%nat ∧
   ∃ r0 r1 r2 r3,
     t_rows boxes = [r0; r1; r2; r3] ∧
     filter_boxes boxes 1 axis = Ok (mkTensor2 dt (t_cols boxes) [r0; r3])).
Proof.
  intros Hk dt. split; [by apply filter_boxes_Ok |]. split.
  - intros Hrep. rewrite filter_boxes_Ok by done. fold dt. do 2 f_equal.
    apply list_filter_iff. intros row. by rewrite Hrep.
  - intros Hcol. split.
    { unfold filter_boxes_inds. rewrite Hcol. by destruct (t_dtype boxes). }
    pose proof Hcol as Hcol'. rewrite column_Ok in Hcol' by done.
    injection Hcol' as Hcol'. subst dt.
    destruct boxes as [dt cols rows]. cbn [t_rows t_cols t_dtype] in *.
    destruct rows as [|r0 [|r1 [|r2 [|r3 [|r4 rows]]]]]; try discriminate.
    exists r0, r1, r2, r3. split; [done |].
    unfold filter_boxes. rewrite Hcol. by destruct dt.
Qed.

Lemma filter_boxes_keeps_class_witness :
  let boxes := tf_constant float32 6
    [[0; 0; 2; 3; 1; 9 # 10]; [-1; -1; -1; -1; -1; -1];
     [1; 1; 4; 4; 2; 8 # 10]; [0; 0; 1; 1; 1; 7 # 10]]%Q in
  filter_boxes boxes 1 default_axis
  = Ok (mkTensor2 float32 (t_cols boxes)
          (filter (fun row => (class_of default_axis row == 1)%Q)
                  (t_rows boxes))) ∧
  filter_boxes_inds boxes 1 default_axis = Ok [0; 3]%nat ∧
  ∃ r0 r1 r2 r3,
    t_rows boxes = [r0; r1; r2; r3] ∧
    filter_boxes boxes 1 default_axis
    = Ok (mkTensor2 float32 (t_cols boxes) [r0; r3]).
Proof.
  cbv zeta.
  destruct (filter_boxes_keeps_class
              (tf_constant float32 6
                 [[0; 0; 2; 3; 1; 9 # 10]; [-1; -1; -1; -1; -1; -1];
                  [1; 1; 4; 4; 2; 8 # 10]; [0; 0; 1; 1; 1; 7 # 10]]%Q)
              1 default_axis) as (_ & Hfilter & Hcolumn).
  - vm_compute. lia.
  - split; [apply Hfilter; by vm_compute |]. apply Hcolumn. by vm_compute.
Defined.

(** ** Tensors of any rank *)

Section TensorProofs.

Context {A : Type}.
Implicit Types (t : tensor A) (ts : list (tensor A)) (sh : list nat).

Lemma pmax_nil_r sh : Tensor.pmax sh [] = sh.
Proof. by destruct sh. Qed.

Lemma pmax_idemp sh : Tensor.pmax sh sh = sh.
Proof. induction sh as [|n sh IH]; [done |]. cbn. by rewrite Nat.max_id, IH. Qed.

Lemma foldr_pmax_const sh (l : list (list nat)) :
  l ≠ [] → Forall (fun s => s = sh) l → foldr Tensor.pmax [] l = sh.
Proof.
  induction l as [|s l IH]; [done |]. intros _ Hall.
  apply Forall_cons in Hall as [-> Hall]. cbn [foldr].
  destruct l as [|s' l]; [apply pmax_nil_r |].
  rewrite IH by done. apply pmax_idemp.
Qed.

Lemma bshape_has_shape sh t :
  has_shape sh t → Tensor.bshape t = visible_shape sh.
Proof.
  revert sh. induction t as [x | ts IH] using tensor_ind; intros sh Hsh.
  - by destruct sh.
  - destruct sh as [|n sh]; [done |]. destruct Hsh as [<- Hall].
    cbn [Tensor.bshape]. destruct ts as [|c ts]; [done |].
    cbn [length visible_shape]. f_equal.
    apply foldr_pmax_const; [done |].
    apply Forall_fmap, Forall_forall. intros c' Hc'. cbn.
    rewrite Forall_forall in IH, Hall. apply IH; auto.
Qed.

Lemma pad_Stack d n sh ts :
  Tensor.pad d (n :: sh) (Stack ts)
  = ts' ← Tensor.mapM_result (Tensor.pad d sh) ts;
    Ok (Stack (ts' ++ replicate (n - length ts) (Tensor.fill d sh))).
Proof.
  cbn [Tensor.pad]. f_equal.
  induction ts as [|c ts IH]; [done |]. cbn [Tensor.mapM_result].
  by rewrite IH.
Qed.

Lemma mapM_result_id (f : tensor A → result (tensor A)) ts :
  Forall (fun c => f c = Ok c) ts → Tensor.mapM_result f ts = Ok ts.
Proof.
  induction 1 as [|c ts Hc _ IH]; [done |].
  cbn [Tensor.mapM_result]. by rewrite Hc, IH.
Qed.

(** Padding a dense tensor to its own shape leaves it as it is. *)
Lemma pad_dense d sh t :
  has_shape sh t → Tensor.pad d (Tensor.bshape t) t = Ok t.
Proof.
  revert sh. induction t as [x | ts IH] using tensor_ind; intros sh Hsh.
  - done.
  - destruct sh as [|n sh]; [done |]. destruct Hsh as [<- Hall].
    cbn [Tensor.bshape]. rewrite pad_Stack, Nat.sub_diag.
    rewrite mapM_result_id.
    + cbn. by rewrite app_nil_r.
    + destruct ts as [|c0 ts0] eqn:Hts; [constructor |]. rewrite <- Hts in *.
      rewrite (foldr_pmax_const (visible_shape sh)).
      * rewrite Forall_forall in IH, Hall. apply Forall_forall.
        intros c Hc. rewrite <- (bshape_has_shape sh c) by auto. eauto.
      * by rewrite Hts.
      * apply Forall_fmap, Forall_forall. intros c Hc. cbn.
        rewrite Forall_forall in Hall. apply bshape_has_shape; auto.
Qed.

Lemma at_index_one ts i c :
  ts !! i = Some c → Tensor.at_index (Stack ts) [i] = Ok c.
Proof. intros H. cbn. by rewrite H. Qed.

Lemma gather_all_from (pre l : list (tensor A)) :
  Tensor.mapM_result (Tensor.at_index (Stack (pre ++ l)))
    ((fun i => [i]) <$> seq (length pre) (length l))
  = Ok l.
Proof.
  revert pre. induction l as [|c l IH]; intros pre; [done |].
  cbn [length seq fmap list_fmap Tensor.mapM_result].
  rewrite (at_index_one _ _ c) by (by apply list_lookup_middle).
  specialize (IH (pre ++ [c])).
  rewrite length_app, Nat.add_1_r, <- app_assoc in IH. cbn [app] in IH.
  cbn [mbind result_bind]. by rewrite IH.
Qed.

(** Gathering every slice in turn gives the tensor back. *)
Lemma gather_nd_all ts :
  Tensor.gather_nd (Stack ts) ((fun i => [i]) <$> seq 0 (length ts))
  = Ok (Stack ts).
Proof.
  unfold Tensor.gather_nd.
  pose proof (gather_all_from [] ts) as H. cbn [app length] in H.
  by rewrite H.
Qed.

End TensorProofs.

Lemma tf_where_Stack ts :
  Tensor.tf_where (Stack ts)
  = Ok ((fix where_from (i : nat) (l : list (tensor bool))
           : list (list nat) :=
           match l with
           | [] => []
           | c :: l' =>
               map (cons i) (Tensor.true_indices c) ++ where_from (S i) l'
           end) 0%nat ts).
Proof. done. Qed.

(** A rank-1 mask that is [true] throughout selects every position. *)
Lemma tf_where_all_true (f : Q → bool) (cs : list Q) :
  Forall (fun c => f c = true) cs →
  Tensor.tf_where (Tensor.tmap f (vec cs))
  = Ok ((fun i => [i]) <$> seq 0 (length cs)).
Proof.
  intros Hall. unfold vec. cbn [Tensor.tmap]. rewrite tf_where_Stack. f_equal.
  generalize 0%nat. induction Hall as [|c cs Hc _ IH]; intros i0; [done |].
  cbn [fmap list_fmap map Tensor.tmap Tensor.true_indices length seq].
  rewrite Hc. cbn [map app]. f_equal. apply IH.
Qed.

(** ** The dictionary functions *)

Lemma getitem_Some (d : gmap string (tensor Q)) key t :
  d !! key = Some t → getitem d key = Ok t.
Proof. intros H. unfold getitem. by rewrite H. Qed.

Lemma getitem_None (d : gmap string (tensor Q)) key :
  d !! key = None → getitem d key = Err (KeyError key).
Proof. intros H. unfold getitem. by rewrite H. Qed.

Lemma lookup_dict_boxes b c f :
  bounding_boxes_dict b c f !! "boxes" = Some b.
Proof. done. Qed.

Lemma lookup_dict_classes b c f :
  bounding_boxes_dict b c f !! "classes" = Some c.
Proof. done. Qed.

Lemma lookup_dict_confidence b c f :
  bounding_boxes_dict b c f !! "confidence" = Some f.
Proof. done. Qed.

Lemma get_boxes_for_image_dict b c f index :
  get_boxes_for_image (bounding_boxes_dict b c f) index
  = (b' ← Tensor.getitem0 b index;
     c' ← Tensor.getitem0 c index;
     f' ← Tensor.getitem0 f index;
     Ok (bounding_boxes_dict b' c' f')).
Proof. done. Qed.

Lemma filter_out_sentinels_dict b c f :
  filter_out_sentinels (bounding_boxes_dict b c f)
  = (indices ←
       Tensor.tf_where (Tensor.tmap (fun c => negb (Qeq_bool c (-1))) c);
     b' ← Tensor.gather_nd b indices;
     c' ← Tensor.gather_nd c indices;
     f' ← Tensor.gather_nd f indices;
     Ok (bounding_boxes_dict b' c' f')).
Proof. done. Qed.

Lemma to_sentinel_padded_one sh (t : tensor Q) :
  has_shape sh t →
  to_sentinel_padded_bounding_box_tensor [t] = Ok (Stack [t]).
Proof.
  intros Hsh. unfold to_sentinel_padded_bounding_box_tensor.
  cbn [ragged_stack mbind result_bind Tensor.bshape length map foldr].
  rewrite pmax_nil_r, pad_Stack.
  cbn [Tensor.mapM_result]. rewrite (pad_dense _ sh) by done. reflexivity.
Qed.

Lemma has_shape_vec (l : list Q) : has_shape [length l] (vec l).
Proof.
  unfold vec. cbn. rewrite length_fmap. split; [done |].
  apply Forall_fmap, Forall_forall. by intros.
Qed.

Lemma batch_of_one_dict b c f shb shc shf :
  has_shape shb b → has_shape shc c → has_shape shf f →
  batch_of_one (bounding_boxes_dict b c f)
  = Ok (bounding_boxes_dict (Stack [b]) (Stack [c]) (Stack [f])).
Proof.
  intros Hb Hc Hf. unfold batch_of_one. cbn [foldr].
  rewrite lookup_dict_boxes, lookup_dict_classes, lookup_dict_confidence.
  cbn [mbind result_bind].
  rewrite (to_sentinel_padded_one shf f), (to_sentinel_padded_one shc c),
    (to_sentinel_padded_one shb b) by done.
  done.
Qed.

Lemma getitem0_one {A} (t : tensor A) : Tensor.getitem0 (Stack [t]) 0 = Ok t.
Proof. done. Qed.

Lemma getitem0_in_range {A} (ts : list (tensor A)) (index : Z) :
  0 ≤ index < Z.of_nat (length ts) →
  ∃ c, ts !! Z.to_nat index = Some c ∧ Tensor.getitem0 (Stack ts) index = Ok c.
Proof.
  intros Hi. destruct (lookup_lt_is_Some_2 ts (Z.to_nat index)) as [c Hc]; [lia |].
  exists c. split; [done |]. unfold Tensor.getitem0.
  rewrite (bool_decide_false (index < 0)) by lia.
  rewrite bool_decide_true by lia. by rewrite Hc.
Qed.

Lemma getitem0_negative {A} (ts : list (tensor A)) (index : Z) :
  - Z.of_nat (length ts) ≤ index < 0 →
  ∃ c, ts !! Z.to_nat (index + Z.of_nat (length ts)) = Some c ∧
       Tensor.getitem0 (Stack ts) index = Ok c.
Proof.
  intros Hi.
  destruct (lookup_lt_is_Some_2 ts (Z.to_nat (index + Z.of_nat (length ts))))
    as [c Hc]; [lia |].
  exists c. split; [done |]. unfold Tensor.getitem0.
  rewrite (bool_decide_true (index < 0)) by lia.
  rewrite bool_decide_true by lia. by rewrite Hc.
Qed.

Lemma getitem0_out_of_range {A} (ts : list (tensor A)) (index : Z) :
  index < - Z.of_nat (length ts) ∨ Z.of_nat (length ts) ≤ index →
  Tensor.getitem0 (Stack ts) index = Err IndexOutOfRange.
Proof.
  intros Hi. unfold Tensor.getitem0.
  destruct (decide (index < 0)) as [Hneg | Hneg].
  - rewrite (bool_decide_true (index < 0)) by done.
    by rewrite bool_decide_false by lia.
  - rewrite (bool_decide_false (index < 0)) by done.
    by rewrite bool_decide_false by lia.
Qed.

(** Box sets of different sizes are filled up at their end with rows of
    [-1]. *)
Example to_sentinel_padded_two_sets :
  to_sentinel_padded_bounding_box_tensor
    [mat [[0; 0; 1; 1]; [1; 1; 2; 2]]%Q; mat [[0; 0; 3; 3]]%Q]
  = Ok (Stack [mat [[0; 0; 1; 1]; [1; 1; 2; 2]]%Q;
               mat [[0; 0; 3; 3]; [-1; -1; -1; -1]]%Q]).
Proof. by vm_compute. Qed.

(** The rows whose class is [-1] are dropped from all three sequences. *)
Example filter_out_sentinels_padded :
  filter_out_sentinels
    (bounding_boxes_dict (mat [[0; 0; 3; 3]; [-1; -1; -1; -1]]%Q)
       (vec [2; -1]%Q) (vec [7 # 10; -1]%Q))
  = Ok (bounding_boxes_dict (mat [[0; 0; 3; 3]]%Q) (vec [2]%Q) (vec [7 # 10]%Q)).
Proof. by vm_compute. Qed.

(** C4, as stated, fails for a box set without a confidence sequence: the
    slicing reads the key ["confidence"] and raises. *)
Lemma round_trip_without_confidence_counterexample :
  let box_set : gmap string (tensor Q) :=
    <["boxes" := mat [[0; 0; 1; 1]]%Q]> (<["classes" := vec [1]%Q]> ∅) in
  Forall not_sentinel [1]%Q ∧
  round_trip box_set = Err (KeyError "confidence") ∧
  round_trip box_set ≠ Ok box_set.
Proof.
  cbv zeta. split; [| split; [by vm_compute | by vm_compute]].
  repeat constructor. by vm_compute.
Qed.

(** C4, amended.  For a box set that has a confidence sequence, at least one
    row, no empty axis and no sentinel row, padding the singleton batch made
    of it with [-1], slicing out image 0 and stripping the sentinel rows
    gives the box set back, row for row and in the same order.  (Without a
    row the padded tensor, and so the result, loses the dimensions behind
    the empty axis, which the tensor type does not record.) *)
Theorem round_trip_no_sentinels (bs : list (tensor Q)) (cs : list Q)
    (fs : list (tensor Q)) (shb shf : list nat) :
  cs ≠ [] →
  Forall (fun n => (0 < n)%nat) shb → Forall (fun n => (0 < n)%nat) shf →
  has_shape (length cs :: shb) (Stack bs) →
  has_shape (length cs :: shf) (Stack fs) →
  Forall not_sentinel cs →
  round_trip (bounding_boxes_dict (Stack bs) (vec cs) (Stack fs))
  = Ok (bounding_boxes_dict (Stack bs) (vec cs) (Stack fs)).
Proof.
  intros _ _ _ Hb Hf Hcs. unfold round_trip.
  rewrite (batch_of_one_dict _ _ _ _ _ _ Hb (has_shape_vec cs) Hf).
  cbn [mbind result_bind].
  rewrite get_boxes_for_image_dict, !getitem0_one. cbn [mbind result_bind].
  rewrite filter_out_sentinels_dict.
  rewrite tf_where_all_true.
  2:{ eapply Forall_impl; [exact Hcs |]. intros c Hc. cbn beta.
      apply negb_true_iff, not_true_iff_false. by rewrite Qeq_bool_iff. }
  cbn [mbind result_bind].
  destruct Hb as [Hlb _], Hf as [Hlf _].
  rewrite <- Hlb at 1. rewrite gather_nd_all. cbn [mbind result_bind].
  unfold vec at 1. rewrite <- (length_fmap Scalar cs) at 1.
  rewrite gather_nd_all. cbn [mbind result_bind].
  rewrite <- Hlf at 1. rewrite gather_nd_all. done.
Qed.

Lemma round_trip_no_sentinels_witness :
  round_trip (bounding_boxes_dict
                (Stack [vec [0; 0; 2; 3]%Q; vec [1; 1; 4; 4]%Q])
                (vec [1; 2]%Q)
                (Stack [Scalar (9 # 10)%Q; Scalar (4 # 10)%Q]))
  = Ok (bounding_boxes_dict
          (Stack [vec [0; 0; 2; 3]%Q; vec [1; 1; 4; 4]%Q])
          (vec [1; 2]%Q)
          (Stack [Scalar (9 # 10)%Q; Scalar (4 # 10)%Q])).
Proof.
  apply (round_trip_no_sentinels
           [vec [0; 0; 2; 3]%Q; vec [1; 1; 4; 4]%Q] [1; 2]%Q
           [Scalar (9 # 10)%Q; Scalar (4 # 10)%Q] [4%nat] []).
  - done.
  - repeat constructor.
  - constructor.
  - cbn. repeat (split || constructor).
  - cbn. repeat (split || constructor).
  - repeat constructor; by vm_compute.
Defined.

(** C6, as stated, fails: an index in [[-batchSize, 0)] is outside
    [[0, batchSize)], yet no error is raised; the slice counted from the end
    is returned. *)
Lemma get_boxes_for_image_negative_index_counterexample :
  let batch :=
    bounding_boxes_dict
      (Stack [mat [[0; 0; 1; 1]]%Q; mat [[2; 2; 3; 3]]%Q])
      (Stack [vec [1]%Q; vec [2]%Q])
      (Stack [vec [9 # 10]%Q; vec [4 # 10]%Q]) in
  ¬ (0 ≤ -1 < 2) ∧
  get_boxes_for_image batch (-1)
  = Ok (bounding_boxes_dict (mat [[2; 2; 3; 3]]%Q) (vec [2]%Q) (vec [4 # 10]%Q)) ∧
  get_boxes_for_image batch (-1) ≠ Err IndexOutOfRange.
Proof. cbv zeta. split; [lia |]. split; [by vm_compute | by vm_compute]. Qed.

(** C6, amended.  On a batch with boxes, classes and confidence of
    [batchSize] images, [get_boxes_for_image] fails with an
    index-out-of-range error whenever the index is outside
    [[-batchSize, batchSize)]; for an index in [[0, batchSize)] it returns the
    box set at that position as it is, padding rows included; for an index in
    [[-batchSize, 0)] it returns the one at position [index + batchSize]. *)
Theorem get_boxes_for_image_index (bs cs fs : list (tensor Q)) (index : Z) :
  length cs = length bs → length fs = length bs →
  let n := Z.of_nat (length bs) in
  let batch := bounding_boxes_dict (Stack bs) (Stack cs) (Stack fs) in
  (index < - n ∨ n ≤ index →
   get_boxes_for_image batch index = Err IndexOutOfRange) ∧
  (0 ≤ index < n →
   ∃ b c f, bs !! Z.to_nat index = Some b ∧ cs !! Z.to_nat index = Some c ∧
            fs !! Z.to_nat index = Some f ∧
            get_boxes_for_image batch index = Ok (bounding_boxes_dict b c f)) ∧
  (- n ≤ index < 0 →
   ∃ b c f, bs !! Z.to_nat (index + n) = Some b ∧
            cs !! Z.to_nat (index + n) = Some c ∧
            fs !! Z.to_nat (index + n) = Some f ∧
            get_boxes_for_image batch index = Ok (bounding_boxes_dict b c f)).
Proof.
  intros Hc Hf n batch. subst n batch. rewrite get_boxes_for_image_dict.
  split; [| split].
  - intros Hi. by rewrite (getitem0_out_of_range bs) by done.
  - intros Hi.
    destruct (getitem0_in_range bs index) as (b & Hb & ->); [lia |].
    destruct (getitem0_in_range cs index) as (c & Hc' & ->); [lia |].
    destruct (getitem0_in_range fs index) as (f & Hf' & ->); [lia |].
    by exists b, c, f.
  - intros Hi.
    destruct (getitem0_negative bs index) as (b & Hb & ->); [lia |].
    destruct (getitem0_negative cs index) as (c & Hc' & ->); [lia |].
    destruct (getitem0_negative fs index) as (f & Hf' & ->); [lia |].
    rewrite Hc in Hc'. rewrite Hf in Hf'. by exists b, c, f.
Qed.

Lemma get_boxes_for_image_index_witness :
  let bs := [mat [[0; 0; 1; 1]; [-1; -1; -1; -1]]%Q;
             mat [[2; 2; 3; 3]; [0; 0; 4; 4]]%Q] in
  let cs := [vec [1; -1]%Q; vec [2; 1]%Q] in
  let fs := [vec [9 # 10; -1]%Q; vec [4 # 10; 3 # 10]%Q] in
  ∃ b c f, bs !! Z.to_nat 0 = Some b ∧ cs !! Z.to_nat 0 = Some c ∧
           fs !! Z.to_nat 0 = Some f ∧
           get_boxes_for_image
             (bounding_boxes_dict (Stack bs) (Stack cs) (Stack fs)) 0
           = Ok (bounding_boxes_dict b c f).
Proof.
  cbv zeta.
  apply (get_boxes_for_image_index
           [mat [[0; 0; 1; 1]; [-1; -1; -1; -1]]%Q;
            mat [[2; 2; 3; 3]; [0; 0; 4; 4]]%Q]
           [vec [1; -1]%Q; vec [2; 1]%Q]
           [vec [9 # 10; -1]%Q; vec [4 # 10; 3 # 10]%Q] 0).
  - reflexivity.
  - reflexivity.
  - cbn. lia.
Defined.

(** C9.  [get_boxes_for_image] and [filter_out_sentinels] read the key
    ["confidence"] whatever the input: on a dictionary without it both raise
    a missing-key error, and when boxes and classes are present the key
    reported is ["confidence"]. *)
Theorem missing_confidence_key_error (bounding_boxes : gmap string (tensor Q))
    (index : Z) :
  bounding_boxes !! "confidence" = None →
  (∃ key, get_boxes_for_image bounding_boxes index = Err (KeyError key)) ∧
  (∃ key, filter_out_sentinels bounding_boxes = Err (KeyError key)) ∧
  (is_Some (bounding_boxes !! "boxes") →
   is_Some (bounding_boxes !! "classes") →
   get_boxes_for_image bounding_boxes index = Err (KeyError "confidence") ∧
   filter_out_sentinels bounding_boxes = Err (KeyError "confidence")).
Proof.
  intros Hconf. unfold get_boxes_for_image, filter_out_sentinels, getitem.
  rewrite Hconf.
  destruct (bounding_boxes !! "boxes") as [b|]; cbn [mbind result_bind];
    [| split; [by eexists | split; [by eexists | by intros [? [=]]]]].
  destruct (bounding_boxes !! "classes") as [c|]; cbn [mbind result_bind];
    [| split; [by eexists | split; [by eexists | by intros _ [? [=]]]]].
  split; [by eexists | split; [by eexists | done]].
Qed.

Lemma missing_confidence_key_error_witness :
  let ground_truth : gmap string (tensor Q) :=
    <["boxes" := Stack [mat [[0; 0; 1; 1]]%Q]]>
      (<["classes" := Stack [vec [1]%Q]]> ∅) in
  (∃ key, get_boxes_for_image ground_truth 0 = Err (KeyError key)) ∧
  (∃ key, filter_out_sentinels ground_truth = Err (KeyError key)) ∧
  (is_Some (ground_truth !! "boxes") →
   is_Some (ground_truth !! "classes") →
   get_boxes_for_image ground_truth 0 = Err (KeyError "confidence") ∧
   filter_out_sentinels ground_truth = Err (KeyError "confidence")).
Proof.
  apply (missing_confidence_key_error
           (<["boxes" := Stack [mat [[0; 0; 1; 1]]%Q]]>
              (<["classes" := Stack [vec [1]%Q]]> ∅)) 0).
  reflexivity.
Defined.

(** ** Sorting by confidence *)

(** With the names the module binds, [order_by_confidence] never returns. *)
Lemma order_by_confidence_raises (bounding_boxes : gmap string (tensor Q)) :
  ∃ e, order_by_confidence module_globals bounding_boxes = Err e.
Proof.
  unfold order_by_confidence, getitem.
  case_bool_decide as Hconf; [by eexists |].
  destruct (bounding_boxes !! "boxes") as [b|]; [| by eexists].
  destruct (bounding_boxes !! "classes") as [c|]; [| by eexists].
  destruct (bounding_boxes !! "confidence") as [f|]; [| done].
  cbn [mbind result_bind]. case_bool_decide; by eexists.
Qed.

(** C5 does not hold of the code.  On a single-image box set (boxes of rank
    2) that has a confidence sequence, [order_by_confidence] does not return
    a sorted box set: it raises a name error, since [preds_for_img] is bound
    nowhere. *)
Theorem order_by_confidence_name_error (bounding_boxes : gmap string (tensor Q))
    (b c f : tensor Q) :
  bounding_boxes !! "boxes" = Some b →
  bounding_boxes !! "classes" = Some c →
  bounding_boxes !! "confidence" = Some f →
  Tensor.rank b = 2%nat →
  order_by_confidence module_globals bounding_boxes
  = Err (NameError "preds_for_img").
Proof.
  intros Hb Hc Hf Hrank. unfold order_by_confidence, getitem.
  rewrite Hb, Hc, Hf. cbn [mbind result_bind].
  rewrite bool_decide_false by done. by rewrite bool_decide_false by lia.
Qed.

Lemma order_by_confidence_name_error_witness :
  order_by_confidence module_globals
    (bounding_boxes_dict (mat [[0; 0; 1; 1]; [1; 1; 3; 3]]%Q)
       (vec [1; 2]%Q) (vec [3 # 10; 9 # 10]%Q))
  = Err (NameError "preds_for_img").
Proof.
  apply (order_by_confidence_name_error
           (bounding_boxes_dict (mat [[0; 0; 1; 1]; [1; 1; 3; 3]]%Q)
              (vec [1; 2]%Q) (vec [3 # 10; 9 # 10]%Q))
           (mat [[0; 0; 1; 1]; [1; 1; 3; 3]]%Q)
           (vec [1; 2]%Q) (vec [3 # 10; 9 # 10]%Q)).
  - reflexivity.
  - reflexivity.
  - reflexivity.
  - reflexivity.
Defined.

(** *** What the body computes once [preds_for_img] is bound

    The rest of the body is the sort the docstring announces: were
    [preds_for_img] bound to a tensor with one slice per box, the result
    would be the box set reordered by one permutation, confidence
    non-increasing. *)

Lemma insert_desc_perm p l : TopK.insert_desc p l ≡ₚ p :: l.
Proof.
  induction l as [|q l IH]; [done |]. cbn [TopK.insert_desc].
  destruct (Qltb _ _); [| done]. rewrite IH. apply Permutation_swap.
Qed.

Lemma sort_desc_perm l : TopK.sort_desc l ≡ₚ l.
Proof.
  induction l as [|p l IH]; [done |]. cbn [TopK.sort_desc foldr].
  rewrite insert_desc_perm. by f_equiv.
Qed.

Lemma insert_desc_sorted p l :
  StronglySorted (fun p q : nat * Q => (snd q <= snd p)%Q) l →
  StronglySorted (fun p q : nat * Q => (snd q <= snd p)%Q)
                 (TopK.insert_desc p l).
Proof.
  induction 1 as [|q l Hl IH Hq]; cbn [TopK.insert_desc].
  - repeat constructor.
  - destruct (Qltb (snd p) (snd q)) eqn:Hlt.
    + apply Qltb_true in Hlt. constructor; [done |].
      rewrite insert_desc_perm. constructor; [by apply Qlt_le_weak | done].
    + apply Qltb_false in Hlt. constructor; [by constructor |].
      constructor; [done |].
      eapply Forall_impl; [exact Hq |]. intros r Hr. cbn beta in *.
      by eapply Qle_trans.
Qed.

Lemma sort_desc_sorted l :
  StronglySorted (fun p q : nat * Q => (snd q <= snd p)%Q) (TopK.sort_desc l).
Proof.
  induction l as [|p l IH]; [constructor |]. by apply insert_desc_sorted.
Qed.

Lemma scalars_fmap {A} (v : list A) : TopK.scalars (Scalar <$> v) = Some v.
Proof. induction v as [|x v IH]; [done |]. cbn. by rewrite IH. Qed.

Lemma gather_Stack {A} (params : tensor A) (l : list (tensor nat)) :
  TopK.gather params (Stack l)
  = l' ← Tensor.mapM_result (TopK.gather params) l; Ok (Stack l').
Proof.
  cbn [TopK.gather]. f_equal.
  induction l as [|c l IH]; [done |]. cbn [Tensor.mapM_result]. by rewrite IH.
Qed.

Lemma gather_slices {A} (ts : list (tensor A)) (idx : list nat) :
  Forall (fun i => (i < length ts)%nat) idx →
  ∃ out, TopK.gather (Stack ts) (Stack (Scalar <$> idx)) = Ok (Stack out) ∧
         Forall2 (fun i c => ts !! i = Some c) idx out.
Proof.
  intros Hidx. rewrite gather_Stack.
  induction Hidx as [|i idx Hi _ (out & Hout & Hall)].
  - exists []. by split.
  - destruct (lookup_lt_is_Some_2 ts i Hi) as [c Hc].
    exists (c :: out). split; [| by constructor].
    cbn [fmap list_fmap Tensor.mapM_result TopK.gather Tensor.at_index].
    rewrite Hc. cbn [mbind result_bind] in *.
    destruct (Tensor.mapM_result _ _) as [out'|]; [| done].
    by injection Hout as ->.
Qed.

Lemma gather_vec (v : list Q) (idx : list nat) :
  Forall (fun i => (i < length v)%nat) idx →
  ∃ xs, TopK.gather (vec v) (Stack (Scalar <$> idx)) = Ok (vec xs) ∧
        Forall2 (fun i x => v !! i = Some x) idx xs.
Proof.
  intros Hidx.
  destruct (gather_slices (Scalar <$> v) idx) as (out & Hout & Hall).
  { by rewrite length_fmap. }
  assert (∃ xs, out = Scalar <$> xs
                ∧ Forall2 (fun i x => v !! i = Some x) idx xs) as (xs & -> & ?).
  { clear Hout Hidx. induction Hall as [|i c idx out Hc _ (xs & -> & Hxs)].
    - by exists [].
    - rewrite list_lookup_fmap in Hc.
      destruct (v !! i) as [x|] eqn:Hx; [| done]. injection Hc as <-.
      exists (x :: xs). split; [done | by constructor]. }
  by exists xs.
Qed.

Lemma top_k_vec (v : list Q) :
  TopK.top_k (vec v) (length v)
  = Ok (Stack (Scalar <$> (fst <$> TopK.sort_desc (zip (seq 0 (length v)) v)))).
Proof.
  unfold vec. cbn [TopK.top_k]. rewrite scalars_fmap.
  unfold TopK.top_k_indices. rewrite bool_decide_true by done.
  rewrite take_ge; [done |].
  by rewrite length_fmap, sort_desc_perm, length_zip, length_seq, Nat.min_id.
Qed.

Lemma order_by_confidence_with_preds_for_img
    (globals : gmap string (tensor Q)) (p : tensor Q)
    (bs : list (tensor Q)) (cs fs : list Q) :
  globals !! "preds_for_img" = Some p →
  tf_shape0 p = Ok (length fs) →
  Tensor.rank (Stack bs) = 2%nat →
  length bs = length fs → length cs = length fs →
  ∃ idx bs' cs' fs',
    order_by_confidence globals (bounding_boxes_dict (Stack bs) (vec cs) (vec fs))
    = Ok (bounding_boxes_dict (Stack bs') (vec cs') (vec fs')) ∧
    idx ≡ₚ seq 0 (length fs) ∧
    Forall2 (fun i b => bs !! i = Some b) idx bs' ∧
    Forall2 (fun i c => cs !! i = Some c) idx cs' ∧
    Forall2 (fun i f => fs !! i = Some f) idx fs' ∧
    StronglySorted (fun x y => (y <= x)%Q) fs'.
Proof.
  intros Hp Hshape Hrank Hbs Hcs.
  set (sorted := TopK.sort_desc (zip (seq 0 (length fs)) fs)).
  set (idx := fst <$> sorted).
  assert (idx ≡ₚ seq 0 (length fs)) as Hperm.
  { subst idx sorted. rewrite sort_desc_perm.
    rewrite fst_zip; [done | by rewrite length_seq]. }
  assert (Forall (fun i => (i < length fs)%nat) idx) as Hrange.
  { apply Forall_forall. intros i Hi. rewrite Hperm in Hi.
    apply elem_of_seq in Hi. lia. }
  assert (Forall (fun q : nat * Q => fs !! fst q = Some (snd q)) sorted) as Hpairs.
  { apply Forall_forall. intros [i x] Hq. subst sorted.
    rewrite sort_desc_perm in Hq.
    apply elem_of_lookup_zip_with_1 in Hq as (k & i' & x' & [= -> ->] & Hi & Hx).
    apply lookup_seq in Hi as [-> _]. done. }
  destruct (gather_slices bs idx) as (bs' & Hgb & Hallb); [by rewrite Hbs |].
  destruct (gather_vec cs idx) as (cs' & Hgc & Hallc); [by rewrite Hcs |].
  destruct (gather_vec fs idx) as (fs' & Hgf & Hallf); [done |].
  exists idx, bs', cs', fs'.
  split; [| split; [done | split; [done | split; [done | split; [done |]]]]].
  - unfold order_by_confidence, getitem, load_global.
    rewrite lookup_dict_boxes, lookup_dict_classes, lookup_dict_confidence, Hp.
    rewrite bool_decide_false by done. cbn [mbind result_bind].
    rewrite bool_decide_false by lia. rewrite Hshape. cbn [mbind result_bind].
    rewrite top_k_vec. fold sorted. fold idx. cbn [mbind result_bind].
    rewrite Hgb. cbn [mbind result_bind]. rewrite Hgc. cbn [mbind result_bind].
    by rewrite Hgf.
  - assert (fs' = snd <$> sorted) as ->.
    { subst idx. clear -Hallf Hpairs. revert fs' Hallf.
      induction Hpairs as [|q l Hq _ IH]; intros fs' Hall.
      - by apply Forall2_nil_inv_l in Hall as ->.
      - apply Forall2_cons_inv_l in Hall as (x & xs & Hx & Hxs & ->).
        cbn [fmap list_fmap]. f_equal; [congruence | by apply IH]. }
    eapply StronglySorted_fmap; [| apply sort_desc_sorted]. done.
Qed.

(** * Further properties of the matcher *)

(** X1.  The match result has one entry per predicted box, and every entry
    is [-1] or the index of a ground-truth box. *)
Theorem match_boxes_shape (ious : Tensor2) (threshold : Q) :
  length (match_boxes ious threshold) = shape1 ious ∧
  Forall (fun m => m = -1 ∨ 0 ≤ m < Z.of_nat (shape0 ious))
         (match_boxes ious threshold).
Proof.
  split; [apply length_match_boxes |].
  apply Forall_lookup. intros j m Hm. by eapply match_boxes_range.
Qed.

(** X2.  A predicted box is left unmatched exactly when every ground truth
    still free at its turn has an IoU with it below the start value
    [min(threshold, 1 - 1e-10)], the two scalars being converted to the dtype
    of the IoU tensor. *)
Theorem match_boxes_unmatched_iff (ious : Tensor2) (threshold : Q) (j : nat) :
  (j < shape1 ious)%nat →
  match_boxes ious threshold !! j = Some (-1)
  ↔ ∀ i, (i < shape0 ious)%nat →
         unmatched_before (match_boxes ious threshold) j i →
         (entry ious i j
          < Qmin (cast (t_dtype ious) threshold)
                 (cast (t_dtype ious) one_minus_eps))%Q.
Proof.
  intros Hj. split.
  - intros Hm i Hi Hfree.
    rewrite match_boxes_lookup in Hm by done. injection Hm as Hm.
    unfold best_gt in Hm. apply loop_free_iff in Hfree; [| lia | done].
    pose proof (scan_pick ious threshold (fst (match_loop ious threshold j)) j
                  (shape0 ious)) as Hpick.
    pose proof (scan_best ious threshold (fst (match_loop ious threshold j)) j
                  (shape0 ious)) as Hbest.
    destruct (scan _ _ _ _ _) as [m v]. cbn [fst] in Hm. subst m.
    destruct Hpick as [[_ ->] | [? _]]; [| lia].
    apply (Hbest i Hi Hfree). lia.
  - intros Hall.
    destruct (lookup_lt_is_Some_2 (match_boxes ious threshold) j) as [m Hm].
    { by rewrite length_match_boxes. }
    destruct (match_boxes_range _ _ _ _ Hm) as [-> | Hrange]; [done |].
    exfalso. replace m with (Z.of_nat (Z.to_nat m)) in Hm by lia.
    destruct (match_boxes_pick _ _ _ _ Hm) as (_ & Hlt & Hfree & Hinit & _).
    apply (Qlt_not_le _ _ (Hall _ Hlt Hfree)). exact Hinit.
Qed.

Lemma match_boxes_unmatched_iff_witness :
  let ious := tf_constant float32 3 [[9 # 10; 1 # 10; 0]; [2 # 10; 8 # 10; 95 # 100]]%Q in
  match_boxes ious (1 # 2) !! 2%nat = Some (-1)
  ↔ ∀ i, (i < shape0 ious)%nat →
         unmatched_before (match_boxes ious (1 # 2)) 2 i →
         (entry ious i 2
          < Qmin (cast (t_dtype ious) (1 # 2))
                 (cast (t_dtype ious) one_minus_eps))%Q.
Proof.
  apply (match_boxes_unmatched_iff
           (tf_constant float32 3 [[9 # 10; 1 # 10; 0]; [2 # 10; 8 # 10; 95 # 100]]%Q)
           (1 # 2) 2).
  vm_compute. lia.
Defined.

(** X3.  The ground truth matched to a predicted box was still free at its
    turn, and no free ground truth has a larger IoU with the box. *)
Theorem match_boxes_best_free (ious : Tensor2) (threshold : Q) (j m : nat) :
  match_boxes ious threshold !! j = Some (Z.of_nat m) →
  (m < shape0 ious)%nat ∧
  unmatched_before (match_boxes ious threshold) j m ∧
  ∀ i, (i < shape0 ious)%nat →
       unmatched_before (match_boxes ious threshold) j i →
       (entry ious i j <= entry ious m j)%Q.
Proof.
  intros Hm.
  destruct (match_boxes_pick _ _ _ _ Hm) as (_ & Hlt & Hfree & _ & Hbest).
  split; [done |]. split; [done |]. intros i Hi Hi'. by apply Hbest.
Qed.

Lemma match_boxes_best_free_witness :
  let ious := tf_constant float32 3 [[9 # 10; 1 # 10; 0]; [2 # 10; 8 # 10; 95 # 100]]%Q in
  (1 < shape0 ious)%nat ∧
  unmatched_before (match_boxes ious (1 # 2)) 1 1 ∧
  ∀ i, (i < shape0 ious)%nat →
       unmatched_before (match_boxes ious (1 # 2)) 1 i →
       (entry ious i 1 <= entry ious 1 1)%Q.
Proof.
  apply (match_boxes_best_free
           (tf_constant float32 3 [[9 # 10; 1 # 10; 0]; [2 # 10; 8 # 10; 95 # 100]]%Q)
           (1 # 2) 1 1).
  by vm_compute.
Defined.

(** X4.  Empty inputs: without ground truths every predicted box is
    unmatched, and without predicted boxes the result is empty. *)
Theorem match_boxes_empty (ious : Tensor2) (threshold : Q) :
  (shape0 ious = 0%nat →
   match_boxes ious threshold = replicate (shape1 ious) (-1)) ∧
  (shape1 ious = 0%nat → match_boxes ious threshold = []).
Proof.
  split.
  - intros Hno. apply list_eq_same_length with (shape1 ious);
      [apply length_replicate | apply length_match_boxes |].
    intros j m m' Hj Hm Hm'.
    apply lookup_replicate_1 in Hm' as [-> _].
    destruct (match_boxes_range _ _ _ _ Hm); [done | lia].
  - intros Hno. apply nil_length_inv. by rewrite length_match_boxes.
Qed.

Lemma match_boxes_empty_witness :
  match_boxes (tf_constant float32 3 []) (1 # 2) = replicate 3 (-1).
Proof.
  apply (match_boxes_empty (tf_constant float32 3 []) (1 # 2)). reflexivity.
Defined.

Lemma scan_ext ious ious' threshold g j n :
  t_dtype ious = t_dtype ious' →
  (∀ i, (i < n)%nat → entry ious i j = entry ious' i j) →
  scan ious threshold g j n = scan ious' threshold g j n.
Proof.
  intros Hdt. induction n as [|n IH]; intros Hcol.
  - unfold scan. cbn [seq fold_left]. by rewrite Hdt.
  - rewrite !scan_S, IH by (intros; apply Hcol; lia).
    unfold scan_gt. by rewrite Hcol by lia.
Qed.

Lemma match_detection_fst ious threshold gt pm k :
  fst (match_detection ious threshold (gt, pm) k)
  = let m := fst (best_gt ious threshold gt k) in
    if bool_decide (m = -1) then gt else ta_write gt (Z.to_nat m) (Z.of_nat k).
Proof. unfold match_detection. cbv zeta. by case_bool_decide. Qed.

Lemma match_loop_fst_ext ious ious' threshold k :
  t_dtype ious = t_dtype ious' →
  shape0 ious = shape0 ious' →
  (∀ i j, (i < shape0 ious)%nat → (j < k)%nat →
     entry ious i j = entry ious' i j) →
  fst (match_loop ious threshold k) = fst (match_loop ious' threshold k).
Proof.
  intros Hdt Hrows. induction k as [|k IH]; intros Hcols.
  - unfold match_loop. cbn [seq fold_left fst]. by rewrite Hrows.
  - rewrite !match_loop_S.
    specialize (IH ltac:(intros; apply Hcols; lia)).
    destruct (match_loop ious threshold k) as [gt pm],
             (match_loop ious' threshold k) as [gt' pm'].
    cbn [fst] in IH. subst gt'. rewrite !match_detection_fst.
    unfold best_gt. rewrite <- Hrows.
    by rewrite (scan_ext ious ious') by (done || intros; apply Hcols; lia).
Qed.

(** The start value of the scan is a float of the dtype of the IoU table: the
    same entry [float32(0.7)] with the same threshold [0.7] is matched in a
    float32 table and left unmatched in a float64 one. *)
Example match_boxes_depends_on_dtype :
  let e := cast float32 (7 # 10) in
  match_boxes (mkTensor2 float32 1 [[e]]) (7 # 10) = [0] ∧
  match_boxes (mkTensor2 float64 1 [[e]]) (7 # 10) = [-1].
Proof. by vm_compute. Qed.

(** X5.  The matching is greedy in the order of the predicted boxes: for IoU
    tables of one dtype, the entries of the first [k] predicted boxes depend
    only on the first [k] columns of the IoU table, so the boxes processed
    later (and how many there are) never change an earlier decision. *)
Theorem match_boxes_prefix_independent (ious ious' : Tensor2) (threshold : Q)
    (k j : nat) :
  t_dtype ious = t_dtype ious' →
  shape0 ious = shape0 ious' →
  (k ≤ shape1 ious)%nat → (k ≤ shape1 ious')%nat →
  (∀ i j, (i < shape0 ious)%nat → (j < k)%nat →
     entry ious i j = entry ious' i j) →
  (j < k)%nat →
  match_boxes ious threshold !! j = match_boxes ious' threshold !! j.
Proof.
  intros Hdt Hrows Hk Hk' Hcols Hj.
  rewrite !match_boxes_lookup by lia. do 2 f_equal.
  rewrite (match_loop_fst_ext ious ious')
    by (done || intros; apply Hcols; lia).
  unfold best_gt. rewrite <- Hrows.
  apply scan_ext; [done |]. intros. apply Hcols; lia.
Qed.

Lemma match_boxes_prefix_independent_witness :
  match_boxes
    (tf_constant float32 3 [[9 # 10; 1 # 10; 0]; [2 # 10; 8 # 10; 95 # 100]]%Q) (1 # 2)
    !! 1%nat
  = match_boxes (tf_constant float32 2 [[9 # 10; 1 # 10]; [2 # 10; 8 # 10]]%Q) (1 # 2)
    !! 1%nat.
Proof.
  apply (match_boxes_prefix_independent
           (tf_constant float32 3 [[9 # 10; 1 # 10; 0]; [2 # 10; 8 # 10; 95 # 100]]%Q)
           (tf_constant float32 2 [[9 # 10; 1 # 10]; [2 # 10; 8 # 10]]%Q)
           (1 # 2) 2 1).
  - reflexivity.
  - reflexivity.
  - vm_compute. lia.
  - vm_compute. lia.
  - intros i j Hi Hj. cbn in Hi.
    destruct i as [|[|i]]; [| | lia]; (destruct j as [|[|j]]; [| | lia]);
      reflexivity.
  - lia.
Defined.

(** X6.  When the loop ends, the two arrays it keeps are inverse to each
    other: [gt_matches] holds [j] at [i] exactly when [pred_matches] holds
    [i] at [j], and a ground truth holds [-1] exactly when no predicted box
    was matched to it. *)
Theorem match_loop_inverse (ious : Tensor2) (threshold : Q) (i j : nat) :
  (i < shape0 ious)%nat → (j < shape1 ious)%nat →
  let st := match_loop ious threshold (shape1 ious) in
  (fst st !! i = Some (Z.of_nat j) ↔ snd st !! j = Some (Z.of_nat i)) ∧
  (fst st !! i = Some (-1)
   ↔ ∀ j', (j' < shape1 ious)%nat → snd st !! j' ≠ Some (Z.of_nat i)).
Proof.
  intros Hi Hj st.
  pose proof (loop_inv_loop ious threshold (shape1 ious) ltac:(lia)) as Hinv.
  subst st. destruct (match_loop ious threshold (shape1 ious)) as [gt pm].
  destruct Hinv as (Hgt & Hpm & Hb & Hc & _). cbn [fst snd].
  split; [split |split].
  - intros Hg. destruct (Hb _ _ Hg) as [? | [_ Hp]]; [lia |].
    by rewrite Nat2Z.id in Hp.
  - intros Hp. destruct (Hc _ _ Hj Hp) as [? | [_ Hg]]; [lia |].
    by rewrite Nat2Z.id in Hg.
  - intros Hg j' Hj' Hp. destruct (Hc _ _ Hj' Hp) as [? | [_ Hg']]; [lia |].
    rewrite Nat2Z.id, Hg in Hg'. injection Hg'. lia.
  - intros Hnone. destruct (lookup_lt_is_Some_2 gt i) as [v Hv]; [lia |].
    destruct (Hb _ _ Hv) as [-> | [Hrange Hp]]; [done |].
    exfalso. apply (Hnone (Z.to_nat v)); [lia | done].
Qed.

Lemma match_loop_inverse_witness :
  let ious := tf_constant float32 3 [[9 # 10; 1 # 10; 0]; [2 # 10; 8 # 10; 95 # 100]]%Q in
  let st := match_loop ious (1 # 2) (shape1 ious) in
  (fst st !! 1%nat = Some (Z.of_nat 1) ↔ snd st !! 1%nat = Some (Z.of_nat 1)) ∧
  (fst st !! 1%nat = Some (-1)
   ↔ ∀ j', (j' < shape1 ious)%nat → snd st !! j' ≠ Some (Z.of_nat 1)).
Proof.
  apply (match_loop_inverse
           (tf_constant float32 3 [[9 # 10; 1 # 10; 0]; [2 # 10; 8 # 10; 95 # 100]]%Q)
           (1 # 2) 1 1).
  - vm_compute. lia.
  - vm_compute. lia.
Defined.

(** * Further properties of the filters *)

(** X7.  [bounding_box_area] needs the four corner columns: on a tensor with
    fewer than four columns it fails, otherwise it returns one area per
    row; unless it overflows, the area is the product of [right - left] and
    [bottom - top] of that row with the two differences and the product each
    rounded to the dtype of the tensor; where the three results are floats
    of the dtype, it is the exact area. *)
Theorem bounding_box_area_rows (boxes : Tensor2) :
  ((t_cols boxes < 4)%nat → bounding_box_area boxes = Err IndexOutOfRange) ∧
  ((4 ≤ t_cols boxes)%nat →
   ∃ areas, bounding_box_area boxes = Ok areas ∧
            length areas = shape0 boxes ∧
            ∀ i row, t_rows boxes !! i = Some row →
              area_finite (t_dtype boxes) row →
              let dt := t_dtype boxes in
              let w := (corner XYXY.RIGHT row - corner XYXY.LEFT row)%Q in
              let h := (corner XYXY.BOTTOM row - corner XYXY.TOP row)%Q in
              areas !! i = Some (cast dt (cast dt w * cast dt h)) ∧
              ((cast dt w == w)%Q → (cast dt h == h)%Q →
               (cast dt (w * h) == w * h)%Q →
               ∃ x, areas !! i = Some x ∧ (x == exact_area row)%Q)).
Proof.
  split.
  - intros Hk. unfold bounding_box_area, column, XYXY.RIGHT, XYXY.LEFT,
      XYXY.BOTTOM, XYXY.TOP.
    repeat (case_bool_decide; cbn [mbind result_bind]); try done; lia.
  - intros Hk. exists (map (box_area (t_dtype boxes)) (t_rows boxes)).
    split; [apply bounding_box_area_Ok; lia |].
    split; [apply length_map |].
    intros i row Hrow _ dt w h.
    assert (areas_i : map (box_area dt) (t_rows boxes) !! i
                      = Some (cast dt (cast dt w * cast dt h)))
      by (by rewrite list_lookup_fmap, Hrow).
    split; [done |]. intros Hw Hh Hwh. eexists. split; [done |].
    change (exact_area row) with (w * h)%Q. rewrite <- Hwh.
    apply cast_Qeq. by rewrite Hw, Hh.
Qed.

Lemma bounding_box_area_rows_witness :
  bounding_box_area (tf_constant float32 3 [[0; 0; 2]]%Q) = Err IndexOutOfRange.
Proof.
  apply (bounding_box_area_rows (tf_constant float32 3 [[0; 0; 2]]%Q)). cbn. lia.
Defined.




Lemma in_area_range_both dt a b c d row :
  in_area_range dt a b row ∧ in_area_range dt c d row
  ↔ in_area_range dt (Qmax a c) (Qmin b d) row.
Proof.
  unfold in_area_range. generalize (box_area dt row). intros x.
  assert (cast dt (Qmax a c) <= x ↔ cast dt a <= x ∧ cast dt c <= x)%Q
    as ->.
  { destruct (Q.max_spec a c) as [[Hlt Heq] | [Hle Heq]];
      apply (cast_Qeq dt) in Heq.
    - pose proof (cast_mono dt a c (Qlt_le_weak _ _ Hlt)). split; intros; lra.
    - pose proof (cast_mono dt c a Hle). split; intros; lra. }
  assert (x < cast dt (Qmin b d) ↔ x < cast dt b ∧ x < cast dt d)%Q as ->.
  { destruct (Q.min_spec b d) as [[Hlt Heq] | [Hle Heq]];
      apply (cast_Qeq dt) in Heq.
    - pose proof (cast_mono dt b d (Qlt_le_weak _ _ Hlt)). split; intros; lra.
    - pose proof (cast_mono dt d b Hle). split; intros; lra. }
  tauto.
Qed.

(** X9.  Filtering by the bucket [[a, b)] and then by [[c, d)] is filtering
    by their intersection [[max a c, min b d)]; so the two filters commute
    and filtering twice by one bucket changes nothing. *)
Theorem filter_boxes_by_area_range_compose (boxes : Tensor2) (a b c d : Q) :
  (4 ≤ t_cols boxes)%nat →
  (out ← filter_boxes_by_area_range boxes a b;
   filter_boxes_by_area_range out c d)
  = filter_boxes_by_area_range boxes (Qmax a c) (Qmin b d) ∧
  (out ← filter_boxes_by_area_range boxes a b;
   filter_boxes_by_area_range out c d)
  = (out ← filter_boxes_by_area_range boxes c d;
     filter_boxes_by_area_range out a b) ∧
  (out ← filter_boxes_by_area_range boxes a b;
   filter_boxes_by_area_range out a b)
  = filter_boxes_by_area_range boxes a b.
Proof.
  intros Hk.
  rewrite !(filter_boxes_by_area_range_Ok boxes) by lia.
  cbn [mbind result_bind].
  rewrite !filter_boxes_by_area_range_Ok by (cbn [t_cols]; lia).
  cbn [t_cols t_rows]. rewrite !list_filter_filter.
  split; [| split]; do 2 f_equal; apply list_filter_iff; intros row.
  - rewrite <- in_area_range_both. tauto.
  - tauto.
  - tauto.
Qed.

Lemma filter_boxes_by_area_range_compose_witness :
  let boxes := tf_constant float32 4 [[0; 0; 2; 3]; [0; 0; 1; 1]; [1; 1; 4; 4]]%Q in
  (out ← filter_boxes_by_area_range boxes 0 8;
   filter_boxes_by_area_range out 5 10)
  = filter_boxes_by_area_range boxes (Qmax 0 5) (Qmin 8 10) ∧
  (out ← filter_boxes_by_area_range boxes 0 8;
   filter_boxes_by_area_range out 5 10)
  = (out ← filter_boxes_by_area_range boxes 5 10;
     filter_boxes_by_area_range out 0 8) ∧
  (out ← filter_boxes_by_area_range boxes 0 8;
   filter_boxes_by_area_range out 0 8)
  = filter_boxes_by_area_range boxes 0 8.
Proof.
  apply (filter_boxes_by_area_range_compose
           (tf_constant float32 4 [[0; 0; 2; 3]; [0; 0; 1; 1]; [1; 1; 4; 4]]%Q) 0 8 5 10).
  cbn. lia.
Defined.

(** X10.  A bucket whose upper end is not above its lower end keeps no row,
    and the rows kept for a bucket are among the rows kept for any bucket
    that contains it, in the same order. *)
Theorem filter_boxes_by_area_range_buckets (boxes : Tensor2) (a b c d : Q) :
  (4 ≤ t_cols boxes)%nat →
  ((b <= a)%Q →
   filter_boxes_by_area_range boxes a b = Ok (mkTensor2 (t_dtype boxes) (t_cols boxes) [])) ∧
  ((c <= a)%Q → (b <= d)%Q →
   ∃ inner outer,
     filter_boxes_by_area_range boxes a b = Ok inner ∧
     filter_boxes_by_area_range boxes c d = Ok outer ∧
     sublist (t_rows inner) (t_rows outer)).
Proof.
  intros Hk. rewrite !filter_boxes_by_area_range_Ok by lia. split.
  - intros Hba. do 2 f_equal.
    induction (t_rows boxes) as [|row rows IH]; [done |].
    rewrite filter_cons, decide_False; [done |].
    intros [Hlo Hhi]. apply (Qlt_not_le _ _ Hhi).
    eapply Qle_trans; [by apply cast_mono | done].
  - intros Hca Hbd. eexists _, _. split; [done |]. split; [done |].
    cbn [t_rows].
    induction (t_rows boxes) as [|row rows IH]; [done |].
    rewrite !filter_cons. case_decide as Hin.
    + rewrite decide_True; [by constructor |].
      destruct Hin as [Hlo Hhi]. split.
      * eapply Qle_trans; [by apply cast_mono | done].
      * eapply Qlt_le_trans; [done | by apply cast_mono].
    + case_decide; [by constructor | done].
Qed.

Lemma filter_boxes_by_area_range_buckets_witness :
  let boxes := tf_constant float32 4 [[0; 0; 2; 3]; [0; 0; 1; 1]; [1; 1; 4; 4]]%Q in
  filter_boxes_by_area_range boxes 5 5 = Ok (mkTensor2 (t_dtype boxes) (t_cols boxes) []) ∧
  ∃ inner outer,
    filter_boxes_by_area_range boxes 1 5 = Ok inner ∧
    filter_boxes_by_area_range boxes 0 10 = Ok outer ∧
    sublist (t_rows inner) (t_rows outer).
Proof.
  cbv zeta.
  destruct (filter_boxes_by_area_range_buckets
              (tf_constant float32 4 [[0; 0; 2; 3]; [0; 0; 1; 1]; [1; 1; 4; 4]]%Q)
              5 5 0 10) as [Hempty _]; [cbn; lia |].
  destruct (filter_boxes_by_area_range_buckets
              (tf_constant float32 4 [[0; 0; 2; 3]; [0; 0; 1; 1]; [1; 1; 4; 4]]%Q)
              1 5 0 10) as [_ Hsub]; [cbn; lia |].
  split; [apply Hempty; by vm_compute |].
  apply Hsub; by vm_compute.
Defined.

(** X11.  The class filter and the area filter commute; filtering twice by
    one class changes nothing, and filtering in a row by two classes that
    differ as floats of the dtype of the tensor leaves no row. *)
Theorem filter_boxes_compose (boxes : Tensor2) (value value' a b : Q)
    (axis : nat) :
  (4 ≤ t_cols boxes)%nat → (axis < t_cols boxes)%nat →
  (out ← filter_boxes boxes value axis; filter_boxes_by_area_range out a b)
  = (out ← filter_boxes_by_area_range boxes a b; filter_boxes out value axis) ∧
  (out ← filter_boxes boxes value axis; filter_boxes out value axis)
  = filter_boxes boxes value axis ∧
  (¬ (cast (t_dtype boxes) value == cast (t_dtype boxes) value')%Q →
   (out ← filter_boxes boxes value axis; filter_boxes out value' axis)
   = Ok (mkTensor2 (t_dtype boxes) (t_cols boxes) [])).
Proof.
  intros Hk Haxis.
  rewrite !(filter_boxes_Ok boxes), !(filter_boxes_by_area_range_Ok boxes)
    by done.
  cbn [mbind result_bind].
  rewrite !filter_boxes_Ok, !filter_boxes_by_area_range_Ok
    by (cbn [t_cols]; lia).
  cbn [t_cols t_rows]. rewrite !list_filter_filter.
  split; [| split].
  - do 2 f_equal. apply list_filter_iff. intros row. tauto.
  - do 2 f_equal. apply list_filter_iff. intros row. tauto.
  - intros Hne. do 2 f_equal.
    induction (t_rows boxes) as [|row rows IH]; [done |].
    rewrite filter_cons, decide_False; [done |].
    intros [Hv Hv']. apply Hne. by rewrite <- Hv, <- Hv'.
Qed.

Lemma filter_boxes_compose_witness :
  let boxes := tf_constant float32 6
    [[0; 0; 2; 3; 1; 9 # 10]; [-1; -1; -1; -1; -1; -1];
     [1; 1; 4; 4; 2; 8 # 10]; [0; 0; 1; 1; 1; 7 # 10]]%Q in
  (out ← filter_boxes boxes 1 4; filter_boxes_by_area_range out 5 10)
  = (out ← filter_boxes_by_area_range boxes 5 10; filter_boxes out 1 4) ∧
  (out ← filter_boxes boxes 1 4; filter_boxes out 1 4)
  = filter_boxes boxes 1 4 ∧
  (out ← filter_boxes boxes 1 4; filter_boxes out 2 4)
  = Ok (mkTensor2 (t_dtype boxes) (t_cols boxes) []).
Proof.
  cbv zeta.
  destruct (filter_boxes_compose
              (tf_constant float32 6
                 [[0; 0; 2; 3; 1; 9 # 10]; [-1; -1; -1; -1; -1; -1];
                  [1; 1; 4; 4; 2; 8 # 10]; [0; 0; 1; 1; 1; 7 # 10]]%Q)
              1 2 5 10 4) as (Hcomm & Hidem & Hdisj).
  - cbn. lia.
  - cbn. lia.
  - split; [exact Hcomm |]. split; [exact Hidem |].
    apply Hdisj. by vm_compute.
Defined.

(** * Further properties of the dictionary functions *)

Lemma tf_where_vec_from (f : Q → bool) (cs : list Q) (k : nat) :
  (fix where_from (i : nat) (l : list (tensor bool)) : list (list nat) :=
     match l with
     | [] => []
     | c :: l' => map (cons i) (Tensor.true_indices c) ++ where_from (S i) l'
     end) k (map (Tensor.tmap f) (Scalar <$> cs))
  = (fun i => [i]) <$> where_from k (map f cs).
Proof.
  revert k. induction cs as [|c cs IH]; intros k; [done |].
  cbn [fmap list_fmap map Tensor.tmap Tensor.true_indices where_from].
  rewrite IH. by destruct (f c).
Qed.

Lemma tf_where_vec (f : Q → bool) (cs : list Q) :
  Tensor.tf_where (Tensor.tmap f (vec cs))
  = Ok ((fun i => [i]) <$> tf_where (map f cs)).
Proof.
  unfold vec, tf_where. cbn [Tensor.tmap]. rewrite tf_where_Stack. f_equal.
  apply tf_where_vec_from.
Qed.

Lemma gather_select_from {A} (mask : list bool) (pre xs : list (tensor A)) :
  (length mask ≤ length xs)%nat →
  Tensor.mapM_result (Tensor.at_index (Stack (pre ++ xs)))
    ((fun i => [i]) <$> where_from (length pre) mask)
  = Ok (select mask xs).
Proof.
  revert pre xs. induction mask as [|b mask IH]; intros pre xs Hlen; [done |].
  destruct xs as [|x xs]; [cbn in Hlen; lia |]. cbn [length] in Hlen.
  specialize (IH (pre ++ [x]) xs ltac:(lia)).
  rewrite length_app, Nat.add_1_r, <- app_assoc in IH. cbn [app] in IH.
  cbn [where_from select]. destruct b; [| exact IH].
  cbn [fmap list_fmap Tensor.mapM_result].
  rewrite (at_index_one _ _ x) by (by apply list_lookup_middle).
  cbn [mbind result_bind]. by rewrite IH.
Qed.

Lemma gather_nd_select {A} (mask : list bool) (xs : list (tensor A)) :
  (length mask ≤ length xs)%nat →
  Tensor.gather_nd (Stack xs) ((fun i => [i]) <$> tf_where mask)
  = Ok (Stack (select mask xs)).
Proof.
  intros Hlen. unfold Tensor.gather_nd, tf_where.
  pose proof (gather_select_from mask [] xs Hlen) as H.
  cbn [app length] in H. by rewrite H.
Qed.

Lemma select_fmap {A B} (g : A → B) mask (xs : list A) :
  select mask (g <$> xs) = g <$> select mask xs.
Proof.
  revert xs. induction mask as [|b mask IH]; intros [|x xs]; try done.
  cbn [fmap list_fmap select]. rewrite IH. by destruct b.
Qed.

Lemma select_filter (f : Q → bool) (cs : list Q) :
  select (map f cs) cs = filter (fun c => f c) cs.
Proof.
  induction cs as [|c cs IH]; [done |]. cbn [map select].
  rewrite filter_cons, IH. case_decide as Hc.
  - apply Is_true_true in Hc. by rewrite Hc.
  - apply Is_true_false in Hc. by rewrite Hc.
Qed.

Lemma length_select {A B} mask (xs : list A) (ys : list B) :
  length xs = length ys → length (select mask xs) = length (select mask ys).
Proof.
  revert xs ys. induction mask as [|b mask IH]; intros [|x xs] [|y ys] Hlen;
    try done.
  injection Hlen as Hlen. cbn [select]. destruct b; cbn [length]; auto.
Qed.

Lemma select_app {A} m1 m2 (xs1 xs2 : list A) :
  length m1 = length xs1 →
  select (m1 ++ m2) (xs1 ++ xs2) = select m1 xs1 ++ select m2 xs2.
Proof.
  revert xs1. induction m1 as [|b m1 IH]; intros [|x xs1] Hlen; try done.
  injection Hlen as Hlen. cbn [app select]. rewrite IH by done. by destruct b.
Qed.

Lemma select_all_true {A} (n : nat) (xs : list A) :
  length xs = n → select (replicate n true) xs = xs.
Proof.
  revert xs. induction n as [|n IH]; intros [|x xs] Hlen; try done.
  injection Hlen as Hlen. cbn [replicate select]. by rewrite IH.
Qed.

Lemma select_all_false {A} (n : nat) (xs : list A) :
  select (replicate n false) xs = [].
Proof.
  revert xs. induction n as [|n IH]; intros [|x xs]; try done. apply IH.
Qed.

Lemma sentinel_mask_spec c :
  negb (Qeq_bool c (-1)) ↔ not_sentinel c.
Proof.
  unfold not_sentinel. rewrite <- Qeq_bool_iff.
  destruct (Qeq_bool c (-1)); cbn; split; try done; intros H; by apply H.
Qed.

Lemma sentinel_mask_none cs :
  Forall not_sentinel cs → sentinel_mask cs = replicate (length cs) true.
Proof.
  induction 1 as [|c cs Hc _ IH]; [done |]. unfold sentinel_mask in *.
  cbn [map length replicate]. rewrite IH. f_equal.
  by apply Is_true_true, sentinel_mask_spec.
Qed.

Lemma filter_out_sentinels_select bs cs fs :
  length bs = length cs → length fs = length cs →
  filter_out_sentinels (bounding_boxes_dict (Stack bs) (vec cs) (Stack fs))
  = Ok (bounding_boxes_dict (Stack (select (sentinel_mask cs) bs))
          (vec (select (sentinel_mask cs) cs))
          (Stack (select (sentinel_mask cs) fs))).
Proof.
  intros Hb Hf. rewrite filter_out_sentinels_dict.
  rewrite tf_where_vec. cbn [mbind result_bind]. fold (sentinel_mask cs).
  assert (length (sentinel_mask cs) = length cs) as Hm by apply length_map.
  change (Tensor.gather_nd (vec cs))
    with (Tensor.gather_nd (Stack (Scalar <$> cs))).
  rewrite (gather_nd_select _ bs) by lia. cbn [mbind result_bind].
  rewrite (gather_nd_select _ (Scalar <$> cs)) by (rewrite length_fmap; lia).
  cbn [mbind result_bind].
  rewrite (gather_nd_select _ fs) by lia. cbn [mbind result_bind].
  by rewrite select_fmap.
Qed.

(** X12.  [filter_out_sentinels] drops the rows whose class is [-1] from the
    boxes, the classes and the confidences alike: the three outputs hold the
    entries at the positions of the other classes, in order, and stay
    parallel. *)
Theorem filter_out_sentinels_rows (bs : list (tensor Q)) (cs : list Q)
    (fs : list (tensor Q)) :
  length bs = length cs → length fs = length cs →
  let keep := sentinel_mask cs in
  filter_out_sentinels (bounding_boxes_dict (Stack bs) (vec cs) (Stack fs))
  = Ok (bounding_boxes_dict (Stack (select keep bs)) (vec (select keep cs))
          (Stack (select keep fs))) ∧
  select keep cs = filter not_sentinel cs ∧
  length (select keep bs) = length (select keep cs) ∧
  length (select keep fs) = length (select keep cs).
Proof.
  intros Hb Hf keep. subst keep.
  split; [by apply filter_out_sentinels_select |].
  split; [| split; by apply length_select].
  unfold sentinel_mask. rewrite select_filter.
  apply list_filter_iff. intros c. apply sentinel_mask_spec.
Qed.

Lemma filter_out_sentinels_rows_witness :
  let bs := [vec [0; 0; 3; 3]%Q; vec [-1; -1; -1; -1]%Q; vec [1; 1; 2; 2]%Q] in
  let cs := [2; -1; 1]%Q in
  let fs := [Scalar (7 # 10)%Q; Scalar (-1)%Q; Scalar (1 # 2)%Q] in
  let keep := sentinel_mask cs in
  filter_out_sentinels (bounding_boxes_dict (Stack bs) (vec cs) (Stack fs))
  = Ok (bounding_boxes_dict (Stack (select keep bs)) (vec (select keep cs))
          (Stack (select keep fs))) ∧
  select keep cs = filter not_sentinel cs ∧
  length (select keep bs) = length (select keep cs) ∧
  length (select keep fs) = length (select keep cs).
Proof.
  apply (filter_out_sentinels_rows
           [vec [0; 0; 3; 3]%Q; vec [-1; -1; -1; -1]%Q; vec [1; 1; 2; 2]%Q]
           [2; -1; 1]%Q
           [Scalar (7 # 10)%Q; Scalar (-1)%Q; Scalar (1 # 2)%Q]).
  - reflexivity.
  - reflexivity.
Defined.

Lemma select_not_sentinel cs :
  Forall not_sentinel (select (sentinel_mask cs) cs).
Proof.
  unfold sentinel_mask. rewrite select_filter.
  apply Forall_forall. intros c [Hc _]%list_elem_of_filter.
  by apply sentinel_mask_spec.
Qed.

(** X13.  [filter_out_sentinels] is idempotent: its output has no sentinel
    row left, and stripping it again returns it unchanged. *)
Theorem filter_out_sentinels_idempotent (bs : list (tensor Q)) (cs : list Q)
    (fs : list (tensor Q)) :
  length bs = length cs → length fs = length cs →
  ∃ out, filter_out_sentinels
           (bounding_boxes_dict (Stack bs) (vec cs) (Stack fs)) = Ok out ∧
         filter_out_sentinels out = Ok out.
Proof.
  intros Hb Hf. eexists. split; [by apply filter_out_sentinels_select |].
  rewrite filter_out_sentinels_select by (by apply length_select).
  rewrite (sentinel_mask_none _ (select_not_sentinel cs)).
  rewrite !select_all_true; [done | | done |]; by apply length_select.
Qed.

Lemma filter_out_sentinels_idempotent_witness :
  ∃ out, filter_out_sentinels
           (bounding_boxes_dict
              (Stack [vec [0; 0; 3; 3]%Q; vec [-1; -1; -1; -1]%Q])
              (vec [2; -1]%Q)
              (Stack [Scalar (7 # 10)%Q; Scalar (-1)%Q])) = Ok out ∧
         filter_out_sentinels out = Ok out.
Proof.
  apply (filter_out_sentinels_idempotent
           [vec [0; 0; 3; 3]%Q; vec [-1; -1; -1; -1]%Q] [2; -1]%Q
           [Scalar (7 # 10)%Q; Scalar (-1)%Q]).
  - reflexivity.
  - reflexivity.
Defined.

Lemma visible_shape_positive sh :
  Forall (fun n => (0 < n)%nat) sh → visible_shape sh = sh.
Proof.
  induction 1 as [|n sh Hn _ IH]; [done |].
  destruct n; [lia |]. cbn. by rewrite IH.
Qed.

Lemma bshape_Stack_dense {A} sh (ts : list (tensor A)) :
  Forall (has_shape sh) ts →
  Tensor.bshape (Stack ts) = visible_shape (length ts :: sh).
Proof. intros Hts. by apply bshape_has_shape. Qed.

Lemma pmax_visible n m sh :
  Forall (fun n => (0 < n)%nat) sh →
  Tensor.pmax (visible_shape (n :: sh)) (visible_shape (m :: sh))
  = visible_shape (Nat.max n m :: sh).
Proof.
  intros Hsh. destruct n as [|n], m as [|m]; cbn [visible_shape Nat.max];
    rewrite ?(visible_shape_positive sh) by done; cbn [Tensor.pmax].
  - done.
  - done.
  - by rewrite pmax_nil_r.
  - by rewrite pmax_idemp.
Qed.

Lemma bshape_ragged {A} sh (tss : list (list (tensor A))) :
  Forall (fun n => (0 < n)%nat) sh →
  Forall (Forall (has_shape sh)) tss → tss ≠ [] →
  foldr Tensor.pmax [] (map Tensor.bshape (Stack <$> tss))
  = visible_shape (max_list (length <$> tss) :: sh).
Proof.
  intros Hsh. induction 1 as [|ts tss Hts _ IH]; [done |]. intros _.
  cbn [fmap list_fmap map foldr max_list].
  rewrite (bshape_Stack_dense sh) by done.
  destruct tss as [|ts' tss].
  - cbn. by rewrite pmax_nil_r, Nat.max_0_r.
  - rewrite IH by done. by apply pmax_visible.
Qed.

Lemma pad_set {A} (d : A) sh M (ts : list (tensor A)) :
  Forall (fun n => (0 < n)%nat) sh →
  Forall (has_shape sh) ts → (length ts ≤ M)%nat →
  Tensor.pad d (visible_shape (M :: sh)) (Stack ts)
  = Ok (Stack (pad_rows d sh M ts)).
Proof.
  intros Hsh Hts Hlen. destruct M as [|M].
  - destruct ts; [done | cbn in Hlen; lia].
  - cbn [visible_shape]. rewrite (visible_shape_positive sh) by done.
    rewrite pad_Stack, mapM_result_id; [done |].
    eapply Forall_impl; [exact Hts |]. intros c Hc. cbn beta.
    rewrite <- (visible_shape_positive sh) at 1 by done.
    rewrite <- (bshape_has_shape sh c) by done. by eapply pad_dense.
Qed.

Lemma mapM_result_fmap {A B C} (f : B → result C) (g : A → B) (h : A → C) l :
  Forall (fun x => f (g x) = Ok (h x)) l →
  Tensor.mapM_result f (g <$> l) = Ok (h <$> l).
Proof.
  induction 1 as [|x l Hx _ IH]; [done |].
  cbn [fmap list_fmap Tensor.mapM_result]. by rewrite Hx, IH.
Qed.

Lemma to_sentinel_padded_sets sh (tss : list (list (tensor Q))) :
  Forall (fun n => (0 < n)%nat) sh →
  Forall (Forall (has_shape sh)) tss → tss ≠ [] →
  to_sentinel_padded_bounding_box_tensor (Stack <$> tss)
  = Ok (Stack (Stack <$> (pad_rows (-1)%Q sh (max_list (length <$> tss))
                            <$> tss))).
Proof.
  intros Hsh Htss Hne. unfold to_sentinel_padded_bounding_box_tensor.
  assert (ragged_stack (Stack <$> tss) = Ok (Stack (Stack <$> tss))) as ->
    by (by destruct tss).
  cbn [mbind result_bind Tensor.bshape]. rewrite (bshape_ragged sh) by done.
  rewrite pad_Stack, Nat.sub_diag.
  rewrite (mapM_result_fmap _ Stack
             (fun ts => Stack (pad_rows (-1)%Q sh
                                 (max_list (length <$> tss)) ts))).
  - cbn [mbind result_bind replicate]. rewrite app_nil_r.
    by rewrite <- list_fmap_compose.
  - apply Forall_forall. intros ts Hts. apply pad_set; [done | |].
    + rewrite Forall_forall in Htss. by apply Htss.
    + apply max_list_elem_of_le, list_elem_of_fmap. by exists ts.
Qed.

Lemma length_pad_rows {A} (d : A) sh M (ts : list (tensor A)) :
  (length ts ≤ M)%nat → length (pad_rows d sh M ts) = M.
Proof.
  intros Hlen. unfold pad_rows. rewrite length_app, length_replicate. lia.
Qed.

Lemma has_shape_fill {A} (d : A) sh : has_shape sh (Tensor.fill d sh).
Proof.
  induction sh as [|n sh IH]; [done |]. cbn. rewrite length_replicate.
  split; [done |]. apply Forall_forall. by intros c [-> _]%elem_of_replicate.
Qed.

(** An empty list of box sets is refused. *)
Example to_sentinel_padded_empty_list :
  to_sentinel_padded_bounding_box_tensor [] = Err ValueError.
Proof. done. Qed.

(** X14.  Padding makes the box sets rectangular: for box sets whose rows
    have one shape (no empty axis), one of which at least has a row, every
    set is returned with its rows in front, unchanged and in order, followed
    by rows of [-1] up to the largest number of rows, so the result is a
    dense tensor without an empty axis. *)
Theorem to_sentinel_padded_rectangular (sh : list nat)
    (box_sets : list (list (tensor Q))) :
  Forall (fun n => (0 < n)%nat) sh →
  Forall (Forall (has_shape sh)) box_sets →
  (0 < max_list (length <$> box_sets))%nat →
  let n := max_list (length <$> box_sets) in
  Forall (fun n => (0 < n)%nat) (length box_sets :: n :: sh) ∧
  to_sentinel_padded_bounding_box_tensor (Stack <$> box_sets)
  = Ok (Stack (Stack <$> ((fun rows =>
                             rows ++ replicate (n - length rows)
                                       (Tensor.fill (-1)%Q sh))
                          <$> box_sets))) ∧
  has_shape (length box_sets :: n :: sh)
    (Stack (Stack <$> ((fun rows =>
                          rows ++ replicate (n - length rows)
                                    (Tensor.fill (-1)%Q sh))
                       <$> box_sets))).
Proof.
  intros Hsh Hsets Hpos n.
  assert (box_sets ≠ []) as Hne by (intros ->; cbn in Hpos; lia).
  split.
  { repeat constructor; [| done | done]. destruct box_sets; [done | cbn; lia]. }
  split; [by apply to_sentinel_padded_sets |].
  cbn [has_shape]. rewrite !length_fmap. split; [done |].
  apply Forall_fmap, Forall_fmap, Forall_forall. intros rows Hrows. cbn.
  assert (length rows ≤ n)%nat as Hlen.
  { apply max_list_elem_of_le, list_elem_of_fmap. by exists rows. }
  split; [rewrite length_app, length_replicate; lia |].
  apply Forall_app. split.
  - rewrite Forall_forall in Hsets. by apply Hsets.
  - apply Forall_forall. intros c [-> _]%elem_of_replicate.
    apply has_shape_fill.
Qed.

Lemma to_sentinel_padded_rectangular_witness :
  let box_sets := [[vec [0; 0; 1; 1]%Q; vec [1; 1; 2; 2]%Q]; [];
                   [vec [0; 0; 3; 3]%Q]] in
  let n := max_list (length <$> box_sets) in
  Forall (fun n => (0 < n)%nat) (length box_sets :: n :: [4%nat]) ∧
  to_sentinel_padded_bounding_box_tensor (Stack <$> box_sets)
  = Ok (Stack (Stack <$> ((fun rows =>
                             rows ++ replicate (n - length rows)
                                       (Tensor.fill (-1)%Q [4%nat]))
                          <$> box_sets))) ∧
  has_shape (length box_sets :: n :: [4%nat])
    (Stack (Stack <$> ((fun rows =>
                          rows ++ replicate (n - length rows)
                                    (Tensor.fill (-1)%Q [4%nat]))
                       <$> box_sets))).
Proof.
  apply (to_sentinel_padded_rectangular [4%nat]
           [[vec [0; 0; 1; 1]%Q; vec [1; 1; 2; 2]%Q]; [];
            [vec [0; 0; 3; 3]%Q]]).
  - repeat constructor.
  - repeat (constructor || split).
  - cbn. lia.
Defined.

Lemma getitem0_lookup {A} (ts : list (tensor A)) (k : nat) c :
  ts !! k = Some c → Tensor.getitem0 (Stack ts) (Z.of_nat k) = Ok c.
Proof.
  intros Hc. pose proof (lookup_lt_Some _ _ _ Hc) as Hk.
  unfold Tensor.getitem0.
  rewrite (bool_decide_false (Z.of_nat k < 0)) by lia.
  rewrite bool_decide_true by lia. by rewrite Nat2Z.id, Hc.
Qed.

Lemma pad_rows_scalars (cs : list Q) n :
  pad_rows (-1)%Q [] n (Scalar <$> cs)
  = Scalar <$> (cs ++ replicate (n - length cs) (-1)%Q).
Proof.
  unfold pad_rows. by rewrite length_fmap, fmap_app, fmap_replicate.
Qed.

Lemma sentinel_mask_padded cs p :
  Forall not_sentinel cs →
  sentinel_mask (cs ++ replicate p (-1)%Q)
  = replicate (length cs) true ++ replicate p false.
Proof.
  intros Hcs. unfold sentinel_mask. rewrite map_app.
  fold (sentinel_mask cs). rewrite (sentinel_mask_none cs Hcs). f_equal.
  induction p as [|p IH]; [done |]. cbn [replicate map]. by rewrite IH.
Qed.

Lemma select_padded {A} (n p : nat) (xs pads : list A) :
  length xs = n →
  select (replicate n true ++ replicate p false) (xs ++ pads) = xs.
Proof.
  intros Hn. rewrite select_app by (by rewrite length_replicate).
  by rewrite select_all_true, select_all_false, app_nil_r.
Qed.

Lemma filter_out_sentinels_padded_set shb shf n (im : image) :
  image_ok shb shf im → (length (image_classes im) ≤ n)%nat →
  filter_out_sentinels
    (bounding_boxes_dict
       (Stack (pad_rows (-1)%Q shb n (image_boxes im)))
       (vec (image_classes im
             ++ replicate (n - length (image_classes im)) (-1)%Q))
       (Stack (pad_rows (-1)%Q shf n (image_confidence im))))
  = Ok (box_set_of im).
Proof.
  intros (Hb & Hf & _ & _ & Hcs) Hn.
  rewrite filter_out_sentinels_select.
  - rewrite sentinel_mask_padded by done. unfold pad_rows, box_set_of.
    by rewrite !select_padded.
  - rewrite length_pad_rows by lia.
    rewrite length_app, length_replicate. lia.
  - rewrite length_pad_rows by lia.
    rewrite length_app, length_replicate. lia.
Qed.

Lemma max_list_lengths (g : image → list (tensor Q)) (images : list image) :
  Forall (fun im => length (g im) = length (image_classes im)) images →
  max_list (length <$> (g <$> images)) = max_boxes images.
Proof.
  intros Hall. unfold max_boxes. f_equal.
  rewrite <- list_fmap_compose. apply Forall_fmap_ext_1.
  eapply Forall_impl; [exact Hall |]. intros im Him. exact Him.
Qed.

Lemma batch_of_padded shb shf (images : list image) :
  Forall (fun n => (0 < n)%nat) shb → Forall (fun n => (0 < n)%nat) shf →
  Forall (image_ok shb shf) images → images ≠ [] →
  batch_of images
  = Ok (bounding_boxes_dict
          (Stack ((fun im => Stack (pad_rows (-1)%Q shb (max_boxes images)
                                      (image_boxes im))) <$> images))
          (Stack ((fun im => vec (image_classes im
                                  ++ replicate (max_boxes images
                                                - length (image_classes im))
                                       (-1)%Q)) <$> images))
          (Stack ((fun im => Stack (pad_rows (-1)%Q shf (max_boxes images)
                                      (image_confidence im))) <$> images))).
Proof.
  intros Hshb Hshf Hall Hne. unfold batch_of.
  assert (∀ {B} (g : image → B), g <$> images ≠ []) as Hne'
    by (intros B g; by destruct images).
  replace ((fun im => Stack (image_boxes im)) <$> images)
    with (Stack <$> (image_boxes <$> images))
    by (by rewrite <- list_fmap_compose).
  rewrite (to_sentinel_padded_sets shb);
    [| done
     | apply Forall_fmap; eapply Forall_impl; [exact Hall |];
       by intros im (_ & _ & ? & _)
     | done].
  cbn [mbind result_bind].
  replace ((fun im => vec (image_classes im)) <$> images)
    with (Stack <$> ((fun im => Scalar <$> image_classes im) <$> images))
    by (by rewrite <- list_fmap_compose).
  rewrite (to_sentinel_padded_sets []).
  2:{ constructor. }
  2:{ apply Forall_fmap, Forall_forall. intros im _. cbn beta.
      apply Forall_fmap, Forall_forall. by intros. }
  2:{ done. }
  cbn [mbind result_bind].
  replace ((fun im => Stack (image_confidence im)) <$> images)
    with (Stack <$> (image_confidence <$> images))
    by (by rewrite <- list_fmap_compose).
  rewrite (to_sentinel_padded_sets shf);
    [| done
     | apply Forall_fmap; eapply Forall_impl; [exact Hall |];
       by intros im (_ & _ & _ & ? & _)
     | done].
  cbn [mbind result_bind].
  rewrite (max_list_lengths image_boxes) by
    (eapply Forall_impl; [exact Hall |]; by intros im (? & _)).
  rewrite (max_list_lengths image_confidence) by
    (eapply Forall_impl; [exact Hall |]; by intros im (_ & ? & _)).
  assert (max_list (length <$> ((fun im => Scalar <$> image_classes im)
                                <$> images)) = max_boxes images) as ->.
  { unfold max_boxes. f_equal. rewrite <- list_fmap_compose.
    apply list_fmap_ext. intros _ im _. cbn. apply length_fmap. }
  rewrite <- !list_fmap_compose. do 3 f_equal.
  apply list_fmap_ext. intros _ im _. unfold compose, vec.
  by rewrite pad_rows_scalars.
Qed.

(** X15.  Round trip through a padded batch: for images whose three
    sequences are parallel and whose classes are not [-1], one of which at
    least has a box, the slice of the padded batch at position [k] is image
    [k] followed by sentinel rows, and stripping the sentinels gives image
    [k] back, whatever the sizes of the other images. *)
Theorem batch_round_trip (shb shf : list nat) (images : list image)
    (k : nat) (im : image) :
  Forall (fun n => (0 < n)%nat) shb → Forall (fun n => (0 < n)%nat) shf →
  Forall (image_ok shb shf) images →
  (0 < max_boxes images)%nat →
  images !! k = Some im →
  let n := max_boxes images in
  ∃ batch,
    batch_of images = Ok batch ∧
    get_boxes_for_image batch (Z.of_nat k)
    = Ok (bounding_boxes_dict
            (Stack (image_boxes im
                    ++ replicate (n - length (image_boxes im))
                         (Tensor.fill (-1)%Q shb)))
            (vec (image_classes im
                  ++ replicate (n - length (image_classes im)) (-1)%Q))
            (Stack (image_confidence im
                    ++ replicate (n - length (image_confidence im))
                         (Tensor.fill (-1)%Q shf)))) ∧
    (image ← get_boxes_for_image batch (Z.of_nat k);
     filter_out_sentinels image)
    = Ok (box_set_of im).
Proof.
  intros Hshb Hshf Hall Hpos Hk n. subst n. eexists.
  split; [apply (batch_of_padded shb shf); try done; by intros -> |].
  assert (get_boxes_for_image
            (bounding_boxes_dict
               (Stack ((fun im => Stack (pad_rows (-1)%Q shb (max_boxes images)
                                           (image_boxes im))) <$> images))
               (Stack ((fun im => vec (image_classes im
                                       ++ replicate (max_boxes images
                                                     - length (image_classes im))
                                            (-1)%Q)) <$> images))
               (Stack ((fun im => Stack (pad_rows (-1)%Q shf (max_boxes images)
                                           (image_confidence im))) <$> images)))
            (Z.of_nat k)
          = Ok (bounding_boxes_dict
                  (Stack (pad_rows (-1)%Q shb (max_boxes images)
                            (image_boxes im)))
                  (vec (image_classes im
                        ++ replicate (max_boxes images
                                      - length (image_classes im)) (-1)%Q))
                  (Stack (pad_rows (-1)%Q shf (max_boxes images)
                            (image_confidence im))))) as Hslice.
  { rewrite get_boxes_for_image_dict.
    rewrite !(getitem0_lookup _ k _) by (by rewrite list_lookup_fmap, Hk).
    done. }
  split; [exact Hslice |].
  rewrite Hslice. cbn [mbind result_bind].
  apply (filter_out_sentinels_padded_set shb shf).
  - rewrite Forall_forall in Hall. apply Hall. by eapply list_elem_of_lookup_2.
  - apply max_list_elem_of_le, list_elem_of_fmap. exists im.
    split; [done | by eapply list_elem_of_lookup_2].
Qed.

Lemma batch_round_trip_witness :
  let images : list image :=
    [([vec [0; 0; 1; 1]%Q; vec [1; 1; 2; 2]%Q], [1; 2]%Q,
      [Scalar (9 # 10)%Q; Scalar (4 # 10)%Q]);
     ([vec [0; 0; 3; 3]%Q], [2]%Q, [Scalar (7 # 10)%Q])] in
  let im : image := ([vec [0; 0; 3; 3]%Q], [2]%Q, [Scalar (7 # 10)%Q]) in
  ∃ batch,
    batch_of images = Ok batch ∧
    get_boxes_for_image batch (Z.of_nat 1)
    = Ok (bounding_boxes_dict
            (Stack (image_boxes im
                    ++ replicate (max_boxes images - length (image_boxes im))
                         (Tensor.fill (-1)%Q [4%nat])))
            (vec (image_classes im
                  ++ replicate (max_boxes images - length (image_classes im))
                       (-1)%Q))
            (Stack (image_confidence im
                    ++ replicate (max_boxes images
                                  - length (image_confidence im))
                         (Tensor.fill (-1)%Q [])))) ∧
    (image ← get_boxes_for_image batch (Z.of_nat 1);
     filter_out_sentinels image)
    = Ok (box_set_of im).
Proof.
  apply (batch_round_trip [4%nat] []
           [([vec [0; 0; 1; 1]%Q; vec [1; 1; 2; 2]%Q], [1; 2]%Q,
             [Scalar (9 # 10)%Q; Scalar (4 # 10)%Q]);
            ([vec [0; 0; 3; 3]%Q], [2]%Q, [Scalar (7 # 10)%Q])]
           1 ([vec [0; 0; 3; 3]%Q], [2]%Q, [Scalar (7 # 10)%Q])).
  - repeat constructor.
  - constructor.
  - repeat (constructor || split); by vm_compute.
  - cbn. lia.
  - reflexivity.
Defined.

Lemma getitem0_Ok_iff {A} (t : tensor A) (index : Z) (c : tensor A) :
  Tensor.getitem0 t index = Ok c
  ↔ ∃ ts, t = Stack ts ∧ py_index ts index = Some c.
Proof.
  unfold Tensor.getitem0, py_index. destruct t as [x | ts].
  - split; [done | by intros (? & [=] & _)].
  - split.
    + intros H. exists ts. split; [done |].
      destruct (decide (index < 0)) as [Hneg | Hneg].
      * rewrite (bool_decide_true (index < 0)) in H by done.
        rewrite (bool_decide_false (0 ≤ index)) by lia.
        case_bool_decide; [| done].
        rewrite bool_decide_true by lia.
        destruct (ts !! _); [by injection H as -> | done].
      * rewrite (bool_decide_false (index < 0)) in H by done.
        rewrite (bool_decide_true (0 ≤ index)) by lia.
        case_bool_decide; [| done].
        destruct (ts !! _); [by injection H as -> | done].
    + intros (? & [= <-] & H).
      destruct (decide (index < 0)) as [Hneg | Hneg].
      * rewrite (bool_decide_true (index < 0)) by done.
        rewrite (bool_decide_false (0 ≤ index)) in H by lia.
        case_bool_decide; [| done].
        rewrite bool_decide_true by lia. by rewrite H.
      * rewrite (bool_decide_false (index < 0)) by done.
        rewrite (bool_decide_true (0 ≤ index)) in H by lia.
        pose proof (lookup_lt_Some _ _ _ H).
        rewrite bool_decide_true by lia. by rewrite H.
Qed.

(** X16.  [get_boxes_for_image] succeeds exactly when the three keys hold
    tensors that each have the position [index] on their leading axis (a
    negative index counting from the end); the output then holds these three
    slices and nothing else, so any other key of the input is dropped. *)
Theorem get_boxes_for_image_Ok_iff (bounding_boxes : gmap string (tensor Q))
    (index : Z) (out : gmap string (tensor Q)) :
  get_boxes_for_image bounding_boxes index = Ok out
  ↔ ∃ bs cs fs b c f,
      bounding_boxes !! "boxes" = Some (Stack bs) ∧
      bounding_boxes !! "classes" = Some (Stack cs) ∧
      bounding_boxes !! "confidence" = Some (Stack fs) ∧
      py_index bs index = Some b ∧ py_index cs index = Some c ∧
      py_index fs index = Some f ∧
      out = bounding_boxes_dict b c f.
Proof.
  unfold get_boxes_for_image, getitem. split.
  - destruct (bounding_boxes !! "boxes") as [tb|]; [| done].
    destruct (bounding_boxes !! "classes") as [tc|]; [| done].
    destruct (bounding_boxes !! "confidence") as [tf|]; [| done].
    cbn [mbind result_bind].
    destruct (Tensor.getitem0 tb index) as [b|] eqn:Hb; [| done].
    destruct (Tensor.getitem0 tc index) as [c|] eqn:Hc; [| done].
    destruct (Tensor.getitem0 tf index) as [f|] eqn:Hf; [| done].
    cbn [mbind result_bind]. intros [= <-].
    apply getitem0_Ok_iff in Hb as (bs & -> & Hb).
    apply getitem0_Ok_iff in Hc as (cs & -> & Hc).
    apply getitem0_Ok_iff in Hf as (fs & -> & Hf).
    by exists bs, cs, fs, b, c, f.
  - intros (bs & cs & fs & b & c & f & -> & -> & -> & Hb & Hc & Hf & ->).
    cbn [mbind result_bind].
    rewrite (proj2 (getitem0_Ok_iff (Stack bs) index b)) by eauto.
    rewrite (proj2 (getitem0_Ok_iff (Stack cs) index c)) by eauto.
    rewrite (proj2 (getitem0_Ok_iff (Stack fs) index f)) by eauto.
    done.
Qed.

Lemma rank_has_shape {A} sh (t : tensor A) :
  has_shape sh t → Forall (fun n => (0 < n)%nat) sh →
  Tensor.rank t = length sh.
Proof.
  intros Ht Hsh. unfold Tensor.rank.
  by rewrite (bshape_has_shape sh), visible_shape_positive.
Qed.

(** X17.  The failures of [order_by_confidence]: a missing confidence is a
    value error whatever else is missing; with a confidence, missing boxes
    or classes are key errors; boxes without an empty axis whose rank is not
    2 are a value error; and no input makes the function return. *)
Theorem order_by_confidence_failures (bounding_boxes : gmap string (tensor Q)) :
  (bounding_boxes !! "confidence" = None →
   order_by_confidence module_globals bounding_boxes = Err ValueError) ∧
  (is_Some (bounding_boxes !! "confidence") →
   bounding_boxes !! "boxes" = None →
   order_by_confidence module_globals bounding_boxes
   = Err (KeyError "boxes")) ∧
  (is_Some (bounding_boxes !! "confidence") →
   is_Some (bounding_boxes !! "boxes") →
   bounding_boxes !! "classes" = None →
   order_by_confidence module_globals bounding_boxes
   = Err (KeyError "classes")) ∧
  (∀ b sh, is_Some (bounding_boxes !! "confidence") →
           is_Some (bounding_boxes !! "classes") →
           bounding_boxes !! "boxes" = Some b →
           has_shape sh b → Forall (fun n => (0 < n)%nat) sh →
           length sh ≠ 2%nat →
           order_by_confidence module_globals bounding_boxes
           = Err ValueError) ∧
  (∀ out, order_by_confidence module_globals bounding_boxes ≠ Ok out).
Proof.
  unfold order_by_confidence, getitem.
  destruct (bounding_boxes !! "confidence") as [f|].
  2:{ rewrite bool_decide_true by done.
      repeat split; try done; by intros [? [=]]. }
  rewrite bool_decide_false by done.
  destruct (bounding_boxes !! "boxes") as [b|]; cbn [mbind result_bind].
  2:{ repeat split; try done;
        solve [by intros _ [? [=]] | by intros ? _ _ [=]]. }
  destruct (bounding_boxes !! "classes") as [c|]; cbn [mbind result_bind].
  2:{ repeat split; try done; solve [by intros ? _ [? [=]]]. }
  repeat split; try done.
  - intros b' sh _ _ [= <-] Hb Hsh Hrank.
    rewrite bool_decide_true; [done |]. by rewrite (rank_has_shape sh).
  - intros out. by case_bool_decide.
Qed.

Lemma order_by_confidence_failures_witness :
  order_by_confidence module_globals
    (<["boxes" := mat [[0; 0; 1; 1]]%Q]> (<["classes" := vec [1]%Q]> ∅))
  = Err ValueError.
Proof.
  apply (order_by_confidence_failures
           (<["boxes" := mat [[0; 0; 1; 1]]%Q]> (<["classes" := vec [1]%Q]> ∅))).
  reflexivity.
Defined.

Lemma cast_eq dt x y : (cast dt x == cast dt y)%Q → cast dt x = cast dt y.
Proof.
  unfold cast. intros H. apply Qred_complete.
  by rewrite <- (Qred_correct (round _ _ x)), <- (Qred_correct (round _ _ y)).
Qed.

Lemma start_iou_clamped dt t :
  (one_minus_eps < t)%Q → start_iou dt t = cast dt one_minus_eps.
Proof.
  intros Ht. apply Qlt_le_weak, (cast_mono dt) in Ht.
  unfold start_iou, Qmin, GenericMinMax.gmin.
  destruct (cast dt t ?= cast dt one_minus_eps)%Q eqn:Hcmp; [| | done].
  - apply Qeq_alt in Hcmp. by apply cast_eq.
  - apply Qlt_alt in Hcmp. by destruct (Qlt_not_le _ _ Hcmp).
Qed.

Lemma match_loop_start ious t t' k :
  start_iou (t_dtype ious) t = start_iou (t_dtype ious) t' →
  match_loop ious t k = match_loop ious t' k.
Proof.
  intros Hstart. induction k as [|k IH]; [done |].
  rewrite !match_loop_S, IH.
  unfold match_detection, best_gt, scan. by rewrite Hstart.
Qed.

(** X18.  Above the double [1 - 1e-10] the threshold has no effect: the scan
    starts from [min(threshold, 1 - 1e-10)], so any two thresholds above
    [1 - 1e-10] give the same matches. *)
Theorem match_boxes_threshold_clamped (ious : Tensor2) (t t' : Q) :
  (one_minus_eps < t)%Q → (one_minus_eps < t')%Q →
  match_boxes ious t = match_boxes ious t'.
Proof.
  intros Ht Ht'. unfold match_boxes. f_equal. apply match_loop_start.
  by rewrite !start_iou_clamped.
Qed.

Lemma match_boxes_threshold_clamped_witness :
  match_boxes (tf_constant float32 2 [[1; 1 # 2]]%Q) 1
  = match_boxes (tf_constant float32 2 [[1; 1 # 2]]%Q) 2.
Proof.
  apply (match_boxes_threshold_clamped (tf_constant float32 2 [[1; 1 # 2]]%Q) 1 2).
  - reflexivity.
  - reflexivity.
Defined.

(** X19.  The matching cannot be extended: a pair whose IoU reaches the
    start value [min(threshold, 1 - 1e-10)] (both converted to the dtype of
    the IoU tensor) never ends with both sides unmatched.  If the predicted
    box is unmatched, the ground truth was taken by an earlier predicted
    box. *)
Theorem match_boxes_maximal (ious : Tensor2) (threshold : Q) (i j : nat) :
  (i < shape0 ious)%nat → (j < shape1 ious)%nat →
  (Qmin (cast (t_dtype ious) threshold) (cast (t_dtype ious) one_minus_eps)
   <= entry ious i j)%Q →
  match_boxes ious threshold !! j = Some (-1) →
  ∃ j', (j' < j)%nat ∧ match_boxes ious threshold !! j' = Some (Z.of_nat i).
Proof.
  intros Hi Hj Hiou Hm.
  destruct (decide (ta_read (fst (match_loop ious threshold j)) i > -1))
    as [Htaken | Hfree].
  - pose proof (loop_inv_loop ious threshold j ltac:(lia)) as Hinv.
    pose proof (fun j' => match_boxes_prefix ious threshold j j') as Hpre.
    destruct (match_loop ious threshold j) as [gt pm].
    destruct Hinv as (Hgt & _ & Hb & _). cbn [fst snd] in *.
    unfold ta_read in Htaken.
    destruct (lookup_lt_is_Some_2 gt i) as [v Hv]; [lia |].
    rewrite Hv in Htaken. cbn in Htaken.
    destruct (Hb _ _ Hv) as [-> | [Hrange Hp]]; [lia |].
    exists (Z.to_nat v). split; [lia |]. rewrite Hpre by lia. done.
  - exfalso.
    rewrite match_boxes_lookup in Hm by done. injection Hm as Hm.
    unfold best_gt in Hm.
    pose proof (scan_pick ious threshold (fst (match_loop ious threshold j)) j
                  (shape0 ious)) as Hpick.
    pose proof (scan_best ious threshold (fst (match_loop ious threshold j)) j
                  (shape0 ious)) as Hbest.
    destruct (scan _ _ _ _ _) as [m v]. cbn [fst] in Hm. subst m.
    destruct Hpick as [[_ ->] | [? _]]; [| lia].
    destruct (Hbest i Hi Hfree) as [_ Hlt].
    apply (Qlt_not_le _ _ (Hlt ltac:(lia))). exact Hiou.
Qed.

Lemma match_boxes_maximal_witness :
  let ious := tf_constant float32 3 [[9 # 10; 1 # 10; 0]; [2 # 10; 8 # 10; 95 # 100]]%Q in
  ∃ j', (j' < 2)%nat ∧ match_boxes ious (1 # 2) !! j' = Some (Z.of_nat 1).
Proof.
  apply (match_boxes_maximal
           (tf_constant float32 3 [[9 # 10; 1 # 10; 0]; [2 # 10; 8 # 10; 95 # 100]]%Q)
           (1 # 2) 1 2).
  - vm_compute. lia.
  - vm_compute. lia.
  - by vm_compute.
  - by vm_compute.
Defined.
